(** * Ed25519 key manager: PEM codec and versioned key store

    A shallow embedding of the key-manager script (PEM encoding of exported
    key buffers, the persisted key store, key creation and rotation) and the
    properties its specification states about it. *)

From Stdlib Require Import ZArith NArith List String Ascii Bool Lia.
From Stdlib.Strings Require Import Byte.
From Stdlib Require Import DecimalString DecimalZ.
From stdpp Require Import base option list gmap strings.

Local Open Scope string_scope.

(** ** Strings

    JavaScript strings are modelled as [string]: sequences of code units,
    restricted to the range 0..255 (all text the key manager produces is
    ASCII). *)

Module Js.

Definition LF : ascii := "010"%char.
Definition nl : string := String LF "".

(** Characters that the regular-expression atom [.] refuses. *)
Definition is_line_terminator (c : ascii) : bool :=
  (N_of_ascii c =? 10)%N || (N_of_ascii c =? 13)%N.

(** White space and line terminators, as removed by [String.prototype.trim]. *)
Definition is_white_space (c : ascii) : bool :=
  let n := N_of_ascii c in
  ((9 <=? n)%N && (n <=? 13)%N) || (n =? 32)%N || (n =? 160)%N.

Fixpoint trimStart (s : string) : string :=
  match s with
  | String c s' => if is_white_space c then trimStart s' else s
  | EmptyString => EmptyString
  end.

Fixpoint trimEnd (s : string) : string :=
  match s with
  | EmptyString => EmptyString
  | String c s' =>
      let t := trimEnd s' in
      if is_white_space c && (t =? "") then "" else String c t
  end.

Definition trim (s : string) : string := trimEnd (trimStart s).

(** Every character of the string passes the test. *)
Fixpoint all_chars (p : ascii -> bool) (s : string) : bool :=
  match s with
  | EmptyString => true
  | String c s' => p c && all_chars p s'
  end.

(** [String.fromCharCode(...new Uint8Array(buffer))]: one code unit per byte. *)
Definition fromCharCode (buffer : list byte) : string :=
  string_of_list_byte buffer.

(** *** [btoa] *)

Definition base64_alphabet : string :=
  "ABCDEFGHIJKLMNOPQRSTUVWXYZabcdefghijklmnopqrstuvwxyz0123456789+/".

Definition pad : ascii := "="%char.

Definition sextet_char (i : N) : ascii :=
  match String.get (N.to_nat i) base64_alphabet with
  | Some c => c
  | None => pad
  end.

(** Every three input characters give four output characters; a final group
    of one or two characters is padded with [=]. *)
Fixpoint btoa (s : string) : string :=
  match s with
  | EmptyString => EmptyString
  | String a EmptyString =>
      let n := (N_of_ascii a * 65536)%N in
      String (sextet_char (n / 262144))
        (String (sextet_char ((n / 4096) mod 64))
           (String pad (String pad EmptyString)))
  | String a (String b EmptyString) =>
      let n := (N_of_ascii a * 65536 + N_of_ascii b * 256)%N in
      String (sextet_char (n / 262144))
        (String (sextet_char ((n / 4096) mod 64))
           (String (sextet_char ((n / 64) mod 64))
              (String pad EmptyString)))
  | String a (String b (String c rest)) =>
      let n := (N_of_ascii a * 65536 + N_of_ascii b * 256 + N_of_ascii c)%N in
      String (sextet_char (n / 262144))
        (String (sextet_char ((n / 4096) mod 64))
           (String (sextet_char ((n / 64) mod 64))
              (String (sextet_char (n mod 64)) (btoa rest))))
  end.

(** *** [replace(/(.{64})/g, '$1\n')] *)

(** A match of [.{n}] at the head of [s]: the matched text and what follows. *)
Fixpoint match_dots (n : nat) (s : string) : option (string * string) :=
  match n with
  | O => Some (EmptyString, s)
  | S n' =>
      match s with
      | EmptyString => None
      | String c s' =>
          if is_line_terminator c then None
          else match match_dots n' s' with
               | Some (m, r) => Some (String c m, r)
               | None => None
               end
      end
  end.

(** The global replace scans from the left; where the pattern matches, the
    match is copied followed by a line feed and the scan resumes after it;
    where it does not, one character is copied.  Each round consumes at least
    one character, so [String.length s] rounds are enough. *)
Fixpoint replace_dots64 (fuel : nat) (s : string) : string :=
  match fuel with
  | O => s
  | S fuel' =>
      match match_dots 64 s with
      | Some (m, r) => m +:+ nl +:+ replace_dots64 fuel' r
      | None =>
          match s with
          | EmptyString => EmptyString
          | String c s' => String c (replace_dots64 fuel' s')
          end
      end
  end.

Definition replace_every64 (s : string) : string :=
  replace_dots64 (String.length s) s.

End Js.

(** ** PEM codec *)

Module Pem.
Import Js.

(** [toPEM(buffer, label)] *)
Definition toPEM (buffer : list byte) (label : string) : string :=
  let base64 := trim (replace_every64 (btoa (fromCharCode buffer))) in
  "-----BEGIN " +:+ label +:+ "-----" +:+ nl +:+ base64 +:+ nl +:+
  "-----END " +:+ label +:+ "-----" +:+ nl.

(** *** Reference line wrap

    Written from the specification's words ("line-wraps at 64 characters"),
    to be compared with the replace-and-trim pipeline of [toPEM]: a line feed
    goes before each character that no longer fits on the current line.
    [room] is the number of characters the current line can still take. *)
Fixpoint wrap_at (width room : nat) (s : string) : string :=
  match s with
  | EmptyString => EmptyString
  | String c s' =>
      match room with
      | O => String LF (String c (wrap_at width (width - 1) s'))
      | S room' => String c (wrap_at width room' s')
      end
  end.

Definition wrap64 (s : string) : string := wrap_at 64 64 s.

(** The first line continues a line already begun with [pre]. *)
Definition prepend (pre : string) (ls : list string) : list string :=
  match ls with
  | [] => []
  | l :: ls' => (pre +:+ l) :: ls'
  end.

(** Lines of a wrapped text: every line is full, except that the last one may
    be shorter. *)
Fixpoint wrapped_lines (width : nat) (ls : list string) : bool :=
  match ls with
  | [] => true
  | [l] => (String.length l <=? width)%nat
  | l :: ls' => (String.length l =? width)%nat && wrapped_lines width ls'
  end.

Definition begin_line (label : string) : string :=
  "-----BEGIN " +:+ label +:+ "-----".
Definition end_line (label : string) : string :=
  "-----END " +:+ label +:+ "-----".

(** *** Reference decoder

    The script only encodes.  The decode operation of the specification
    ("strip delimiters, concatenate lines, base64-decode") is modelled here,
    with its helpers, to state the round trip. *)

(** Modelled from the spec: the position of a character in a base64
    alphabet, a helper of the decoder the script does not have. *)
Fixpoint index_in (c : ascii) (s : string) (i : N) : option N :=
  match s with
  | EmptyString => None
  | String d s' => if Ascii.eqb c d then Some i else index_in c s' (N.succ i)
  end.

(** Modelled from the spec: base64 decoding, the inverse of [btoa]; the script
    has no decoder.  [None] stands for an invalid base64 body. *)
Definition char_sextet (c : ascii) : option N := index_in c base64_alphabet 0.

(** Modelled from the spec: base64 decoding of a whole body, four characters
    at a time, with [=] padding accepted in the final group only. *)
Fixpoint atob (s : string) : option string :=
  match s with
  | EmptyString => Some EmptyString
  | String c1 (String c2 (String c3 (String c4 rest))) =>
      i1 ← char_sextet c1;
      i2 ← char_sextet c2;
      if Ascii.eqb c3 pad && Ascii.eqb c4 pad && (rest =? "") then
        let n := ((i1 * 64 + i2) * 4096)%N in
        Some (String (ascii_of_N (n / 65536)) EmptyString)
      else
        i3 ← char_sextet c3;
        if Ascii.eqb c4 pad && (rest =? "") then
          let n := (((i1 * 64 + i2) * 64 + i3) * 64)%N in
          Some (String (ascii_of_N (n / 65536))
                  (String (ascii_of_N ((n / 256) mod 256)) EmptyString))
        else
          i4 ← char_sextet c4;
          tail ← atob rest;
          let n := (((i1 * 64 + i2) * 64 + i3) * 64 + i4)%N in
          Some (String (ascii_of_N (n / 65536))
                  (String (ascii_of_N ((n / 256) mod 256))
                     (String (ascii_of_N (n mod 256)) tail)))
  | _ => None
  end.

(** Characters of base64 text, and of a wrapped base64 body. *)
Definition is_base64_char (c : ascii) : bool :=
  match char_sextet c with
  | Some _ => true
  | None => Ascii.eqb c pad
  end.

Definition not_LF (c : ascii) : bool := negb (Ascii.eqb c LF).
Definition is_body_char (c : ascii) : bool := is_base64_char c || Ascii.eqb c LF.

(** Modelled from the spec: "concatenate lines" of the absent decoder, as a
    function of the text: its line feeds taken out. *)
Fixpoint strip_LF (s : string) : string :=
  match s with
  | EmptyString => EmptyString
  | String c s' => if Ascii.eqb c LF then strip_LF s' else String c (strip_LF s')
  end.

(** Modelled from the spec: the lines of a text, for the absent decoder: the
    text cut at its line feeds. *)
Fixpoint lines (s : string) : list string :=
  match s with
  | EmptyString => [EmptyString]
  | String c s' =>
      match lines s' with
      | l :: ls => if Ascii.eqb c LF then EmptyString :: l :: ls
                   else String c l :: ls
      | [] => []
      end
  end.

(** Modelled from the spec: helpers of the absent decoder that recognise a
    delimiter line by what it starts and ends with. *)
Fixpoint strip_prefix (p s : string) : option string :=
  match p, s with
  | EmptyString, _ => Some s
  | String a p', String b s' => if Ascii.eqb a b then strip_prefix p' s' else None
  | String _ _, EmptyString => None
  end.

Fixpoint strip_suffix (suf s : string) : option string :=
  if s =? suf then Some EmptyString
  else match s with
       | EmptyString => None
       | String c s' => String c <$> strip_suffix suf s'
       end.

(** Modelled from the spec: the label of a delimiter line
    [-----KIND label-----], for the absent decoder. *)
Definition delimiter_label (kind line : string) : option string :=
  strip_prefix ("-----" +:+ kind +:+ " ") line ≫= strip_suffix "-----".

(** Modelled from the spec: the body lines of the absent decoder, up to the
    END delimiter, concatenated.  The END delimiter must carry the label of
    the BEGIN delimiter and close the text. *)
Fixpoint body_until_end (label : string) (ls : list string) : option string :=
  match ls with
  | [] => None
  | l :: ls' =>
      match delimiter_label "END" l with
      | Some label' =>
          if (label' =? label) && forallb (String.eqb "") ls'
          then Some EmptyString else None
      | None => (String.append l) <$> body_until_end label ls'
      end
  end.

(** Modelled from the spec: the decode operation ("strip delimiters,
    concatenate lines, base64-decode"), absent from the script.  [None] stands
    for [MalformedPemError]: a missing delimiter, delimiter labels that do not
    match, or an invalid base64 body. *)
Definition decode (text : string) : option (list byte) :=
  match lines text with
  | first :: rest =>
      label ← delimiter_label "BEGIN" first;
      body ← body_until_end label rest;
      list_byte_of_string <$> atob body
  | [] => None
  end.

End Pem.

(** ** Key store manager *)

Module KeyManager.
Import Js Pem.

Record KeyPair := mkKeyPair {
  privateKey : string;
  publicKey : string;
  createdAt : string;
  version : Z;
}.

Record KeyStore := mkKeyStore {
  currentVersion : Z;
  keys : list KeyPair;
}.

(** What [JSON.parse] can return.  Numbers are kept to the integers: version
    numbers are the only numbers the script reads or writes. *)
#[warnings="-register-all"]
Inductive json :=
| JNull
| JBool (b : bool)
| JNum (n : Z)
| JStr (s : string)
| JArr (elems : list json)
| JObj (fields : list (string * json)).

(** The objects the script builds, with their fields in the order of the
    object literals. *)
Definition json_of_KeyPair (k : KeyPair) : json :=
  JObj [("privateKey", JStr (privateKey k));
        ("publicKey", JStr (publicKey k));
        ("createdAt", JStr (createdAt k));
        ("version", JNum (version k))].

Definition json_of_KeyStore (ks : KeyStore) : json :=
  JObj [("currentVersion", JNum (currentVersion ks));
        ("keys", JArr (map json_of_KeyPair (keys ks)))].

Definition as_KeyPair (v : json) : option KeyPair :=
  match v with
  | JObj [(k1, JStr sk); (k2, JStr pk); (k3, JStr t); (k4, JNum n)] =>
      if (k1 =? "privateKey") && (k2 =? "publicKey") && (k3 =? "createdAt")
         && (k4 =? "version")
      then Some (mkKeyPair sk pk t n) else None
  | _ => None
  end.

(** The typed view of a parsed value.  The script's [KeyStore] annotation is
    not checked at run time; this view is defined on the values the script
    itself writes, and [None] elsewhere. *)
Definition as_KeyStore (v : json) : option KeyStore :=
  match v with
  | JObj [(k1, JNum n); (k2, JArr elems)] =>
      if (k1 =? "currentVersion") && (k2 =? "keys")
      then mkKeyStore n <$> mapM as_KeyPair elems else None
  | _ => None
  end.

(** Shape of the [KeyStore] interface: the named properties are present with
    the declared types, in any order. *)
Fixpoint field (name : string) (fields : list (string * json)) : option json :=
  match fields with
  | [] => None
  | (k, v) :: rest => if k =? name then Some v else field name rest
  end.

Definition is_num (v : option json) : bool :=
  match v with Some (JNum _) => true | _ => false end.
Definition is_str (v : option json) : bool :=
  match v with Some (JStr _) => true | _ => false end.

Definition has_KeyPair_shape (v : json) : bool :=
  match v with
  | JObj fs => is_str (field "privateKey" fs) && is_str (field "publicKey" fs)
               && is_str (field "createdAt" fs) && is_num (field "version" fs)
  | _ => false
  end.

Definition has_KeyStore_shape (v : json) : bool :=
  match v with
  | JObj fs =>
      is_num (field "currentVersion" fs) &&
      match field "keys" fs with
      | Some (JArr elems) => forallb has_KeyPair_shape elems
      | _ => false
      end
  | _ => false
  end.

(** *** Paths *)

Definition KEYS_DIR : string := "./.keys".

(** [join] also normalises its result ([./.keys/x] becomes [.keys/x]); the
    paths are kept as joined, which changes no comparison between them. *)
Definition join (dir name : string) : string := dir +:+ "/" +:+ name.

Definition KEY_STORE_FILE : string := join KEYS_DIR "keystore.json".

(** Integers inside template literals. *)
Definition show (n : Z) : string := NilZero.string_of_int (Z.to_int n).

Definition privateKeyPath (version : Z) : string :=
  join KEYS_DIR ("private-v" +:+ show version +:+ ".pem").
Definition publicKeyPath (version : Z) : string :=
  join KEYS_DIR ("public-v" +:+ show version +:+ ".pem").

(** *** The world the script runs in *)

Inductive event :=
| ConsoleLog (text : string)
| ConsoleWarn (text : string)
| EnsureDir (path : string)
| FileWrite (path : string) (data : string).

Record World := mkWorld {
  files : gmap string string;   (* text files by path *)
  dirs : gset string;           (* directories that exist *)
  trace : list event;           (* console output and file-system writes, oldest first *)
}.

(** How one [Deno.writeTextFile] call ends.  The call truncates the file and
    then writes the text, so a failure can come before anything is touched or
    after part of the text is on disk. *)
Inductive write_result :=
| WriteOk
| WriteDenied
| WriteTorn (written : nat).

(** What [crypto.subtle.generateKey] hands back: a key pair whose halves
    [exportKey] turns into PKCS8 and SPKI buffers, or refuses to. *)
Record CryptoKeyPair := mkCryptoKeyPair {
  pkcs8 : option (list byte);
  spki : option (list byte);
}.

(** The answers of the runtime during one operation. *)
Record Env := mkEnv {
  ensureDir_ok : bool;
  stat_fails : string -> bool;          (* [exists] throws *)
  unreadable : string -> bool;          (* [Deno.readTextFile] throws *)
  write_outcome : string -> write_result;
  generateKey : option CryptoKeyPair;   (* [None]: the primitive throws *)
  now : string;                         (* [new Date().toISOString()] *)
}.

Inductive exn :=
| IoFailure (path : string)
| SyntaxError
| CryptoFailure (operation : string).

(** [Untyped]: a value that does not have the shape of its TypeScript
    annotation reached code that relies on the annotation. *)
Inductive outcome (A : Type) :=
| Returned (a : A)
| Thrown (e : exn)
| Untyped.
Arguments Returned {A} a.
Arguments Thrown {A} e.
Arguments Untyped {A}.

Definition M (A : Type) : Type := World -> World * outcome A.

Definition ret {A} (a : A) : M A := fun w => (w, Returned a).
Definition throw {A} (e : exn) : M A := fun w => (w, Thrown e).
Definition untyped {A} : M A := fun w => (w, Untyped).
Definition bind {A B} (m : M A) (k : A -> M B) : M B :=
  fun w =>
    match m w with
    | (w', Returned a) => k a w'
    | (w', Thrown e) => (w', Thrown e)
    | (w', Untyped) => (w', Untyped)
    end.

(** [try { m } catch (_error) { h }] *)
Definition try_catch {A} (m : M A) (h : M A) : M A :=
  fun w =>
    match m w with
    | (w', Thrown _) => h w'
    | r => r
    end.

Notation "x <- m ;; k" := (bind m (fun x => k))
  (at level 100, m at next level, right associativity).
Notation "m ;;; k" := (bind m (fun _ => k))
  (at level 100, right associativity).

Definition emit (e : event) : M unit :=
  fun w => (mkWorld (files w) (dirs w) (trace w ++ [e]), Returned tt).

Definition console_log (text : string) : M unit := emit (ConsoleLog text).
Definition console_warn (text : string) : M unit := emit (ConsoleWarn text).

Definition ensureDir (env : Env) (path : string) : M unit :=
  fun w =>
    if ensureDir_ok env
    then (mkWorld (files w) ({[path]} ∪ dirs w) (trace w ++ [EnsureDir path]),
          Returned tt)
    else (w, Thrown (IoFailure path)).

Definition exists_ (env : Env) (path : string) : M bool :=
  fun w =>
    if stat_fails env path then (w, Thrown (IoFailure path))
    else (w, Returned (bool_decide (is_Some (files w !! path)))).

Definition readTextFile (env : Env) (path : string) : M string :=
  fun w =>
    if unreadable env path then (w, Thrown (IoFailure path))
    else match files w !! path with
         | Some data => (w, Returned data)
         | None => (w, Thrown (IoFailure path))
         end.

Definition writeTextFile (env : Env) (path data : string) : M unit :=
  fun w =>
    match write_outcome env path with
    | WriteOk =>
        (mkWorld (<[path := data]> (files w)) (dirs w)
           (trace w ++ [FileWrite path data]), Returned tt)
    | WriteDenied => (w, Thrown (IoFailure path))
    | WriteTorn n =>
        let part := String.substring 0 n data in
        (mkWorld (<[path := part]> (files w)) (dirs w)
           (trace w ++ [FileWrite path part]), Thrown (IoFailure path))
    end.

Definition empty_store : KeyStore := mkKeyStore 0 [].

(** The world before the script has ever run: no file, no output. *)
Definition fresh : World := mkWorld ∅ ∅ [].

Section Script.

(** The runtime's JSON functions: [JSON.parse] ([None]: it throws a
    [SyntaxError]) and [JSON.stringify(_, null, 2)]. *)
Variable JSON_parse : string -> option json.
Variable JSON_stringify : json -> string.

Definition parse (data : string) : M json :=
  match JSON_parse data with
  | Some v => ret v
  | None => throw SyntaxError
  end.

(** [initKeysDirectory] *)
Definition initKeysDirectory (env : Env) : M unit :=
  ensureDir env KEYS_DIR ;;;
  console_log ("Keys directory ready (" +:+ KEYS_DIR +:+ ")").

(** [loadKeyStore].  The [try] block either returns the parsed text
    ([Some]) or falls through ([None]); the value is returned as parsed. *)
Definition loadKeyStore (env : Env) : M json :=
  early <- try_catch
             (present <- exists_ env KEY_STORE_FILE ;;
              if (present : bool) then
                data <- readTextFile env KEY_STORE_FILE ;;
                v <- parse data ;;
                ret (Some v)
              else ret None)
             (console_warn "Could not load keystore, creating new one" ;;;
              ret None) ;;
  match early with
  | Some v => ret v
  | None => ret (json_of_KeyStore empty_store)
  end.

(** The use of a loaded value at type [KeyStore]. *)
Definition as_typed (v : json) : M KeyStore :=
  match as_KeyStore v with
  | Some ks => ret ks
  | None => untyped
  end.

(** [saveKeyStore] *)
Definition saveKeyStore (env : Env) (keyStore : KeyStore) : M unit :=
  writeTextFile env KEY_STORE_FILE (JSON_stringify (json_of_KeyStore keyStore)).

(** [generateKeyPair] *)
Definition generateKeyPair (env : Env) : M (string * string) :=
  match generateKey env with
  | None => throw (CryptoFailure "generateKey")
  | Some keyPair =>
      match pkcs8 keyPair with
      | None => throw (CryptoFailure "exportKey pkcs8")
      | Some privateBuf =>
          let privatePem := toPEM privateBuf "PRIVATE KEY" in
          match spki keyPair with
          | None => throw (CryptoFailure "exportKey spki")
          | Some publicBuf =>
              let publicPem := toPEM publicBuf "PUBLIC KEY" in
              ret (privatePem, publicPem)
          end
      end
  end.

(** [saveKeyFiles] *)
Definition saveKeyFiles (env : Env) (version : Z) (privateKey publicKey : string)
  : M unit :=
  writeTextFile env (privateKeyPath version) privateKey ;;;
  writeTextFile env (publicKeyPath version) publicKey.

(** [createNewKeyPair] *)
Definition createNewKeyPair (env : Env) : M KeyStore :=
  initKeysDirectory env ;;;
  loaded <- loadKeyStore env ;;
  keyStore <- as_typed loaded ;;
  let newVersion := (currentVersion keyStore + 1)%Z in
  console_log ("Generating Ed25519 key pair (version " +:+ show newVersion +:+ ")...") ;;;
  pems <- generateKeyPair env ;;
  let '(privateKey, publicKey) := pems in
  saveKeyFiles env newVersion privateKey publicKey ;;;
  let newKeyPair := mkKeyPair privateKey publicKey (now env) newVersion in
  let keyStore' := mkKeyStore newVersion (keys keyStore ++ [newKeyPair]) in
  saveKeyStore env keyStore' ;;;
  console_log "Key pair successfully generated (PKCS8/SPKI)" ;;;
  ret keyStore'.

Definition previous_versions (ks : KeyStore) : string :=
  let text := String.concat ", "
                (map (fun k => "v" +:+ show (version k)) (removelast (keys ks))) in
  if text =? "" then "none" else text.

(** [rotateKeys] *)
Definition rotateKeys (env : Env) : M KeyStore :=
  loaded <- loadKeyStore env ;;
  keyStore <- as_typed loaded ;;
  if (List.length (keys keyStore) =? 0)%nat then
    console_log "No existing keys found, creating first key pair..." ;;;
    createNewKeyPair env
  else
    console_log ("Rotating keys from version " +:+ show (currentVersion keyStore) +:+ "...") ;;;
    console_log ("Preserving " +:+ show (Z.of_nat (List.length (keys keyStore))) +:+ " previous key(s)") ;;;
    newKeyStore <- createNewKeyPair env ;;
    console_log "Key rotation complete:" ;;;
    console_log ("  - Current version: " +:+ show (currentVersion newKeyStore)) ;;;
    console_log ("  - Total keys stored: " +:+ show (Z.of_nat (List.length (keys newKeyStore)))) ;;;
    console_log ("  - Previous versions: " +:+ previous_versions newKeyStore) ;;;
    ret newKeyStore.

(** *** Stores and worlds reached by running the script *)

(** Worlds reached from the fresh world (no store file yet, nothing written)
    by operations that return normally, each in an environment that
    satisfies [admits]. *)
Inductive reachable (admits : Env -> Prop) : World -> Prop :=
| reach_fresh : reachable admits fresh
| reach_load env w w' v :
    reachable admits w -> admits env ->
    loadKeyStore env w = (w', Returned v) -> reachable admits w'
| reach_create env w w' ks :
    reachable admits w -> admits env ->
    createNewKeyPair env w = (w', Returned ks) -> reachable admits w'
| reach_rotate env w w' ks :
    reachable admits w -> admits env ->
    rotateKeys env w = (w', Returned ks) -> reachable admits w'.

End Script.

Definition any_env (env : Env) : Prop := True.

(** The store file can be read: neither [exists] nor [readTextFile] throws
    on it. *)
Definition store_readable (env : Env) : Prop :=
  stat_fails env KEY_STORE_FILE = false /\ unreadable env KEY_STORE_FILE = false.

(** Nothing fails while version [v] is created. *)
Definition healthy (env : Env) (v : Z) (privateBuf publicBuf : list byte) : Prop :=
  ensureDir_ok env = true /\
  generateKey env = Some (mkCryptoKeyPair (Some privateBuf) (Some publicBuf)) /\
  write_outcome env (privateKeyPath v) = WriteOk /\
  write_outcome env (publicKeyPath v) = WriteOk /\
  write_outcome env KEY_STORE_FILE = WriteOk.

(** The exception [generateKeyPair] ends with, if the primitive refuses to
    generate or to export. *)
Definition keygen_error (env : Env) : option exn :=
  match generateKey env with
  | None => Some (CryptoFailure "generateKey")
  | Some keyPair =>
      match pkcs8 keyPair, spki keyPair with
      | None, _ => Some (CryptoFailure "exportKey pkcs8")
      | Some _, None => Some (CryptoFailure "exportKey spki")
      | Some _, Some _ => None
      end
  end.

Definition max_version (ks : list KeyPair) : Z :=
  foldr Z.max 0%Z (map version ks).

(** The store invariant: [currentVersion] is the largest version (0 for no
    keys), versions are unique, and they run 1, 2, ..., [currentVersion] in
    the order of the keys. *)
Definition store_inv (ks : KeyStore) : Prop :=
  currentVersion ks = max_version (keys ks) /\
  NoDup (map version (keys ks)) /\
  map version (keys ks) = seqZ 1 (currentVersion ks).

(** The store that the store file of [w] holds: the empty store while there
    is no file, otherwise the store whose text the file contains. *)
Definition persisted (stringify : json -> string) (w : World) (ks : KeyStore)
  : Prop :=
  match files w !! KEY_STORE_FILE with
  | None => ks = empty_store
  | Some data => data = stringify (json_of_KeyStore ks)
  end.

(** The key pair that [createNewKeyPair] appends. *)
Definition new_key (env : Env) (v : Z) (privateBuf publicBuf : list byte) : KeyPair :=
  mkKeyPair (toPEM privateBuf "PRIVATE KEY") (toPEM publicBuf "PUBLIC KEY")
    (now env) v.

(** How many times the trace writes to [path]. *)
Fixpoint writes_to (path : string) (t : list event) : nat :=
  match t with
  | [] => 0
  | FileWrite p _ :: t' => (if String.eqb p path then 1 else 0) + writes_to path t'
  | _ :: t' => writes_to path t'
  end.

Definition warned (w : World) : World :=
  mkWorld (files w) (dirs w)
    (trace w ++ [ConsoleWarn "Could not load keystore, creating new one"]).

(** Each key file of versions 1 to [n] has been written exactly once, and no
    other key file has been written. *)
Definition key_files_written (n : Z) (t : list event) : Prop :=
  forall N : Z,
    writes_to (privateKeyPath N) t = (if bool_decide (1 <= N <= n)%Z then 1 else 0) /\
    writes_to (publicKeyPath N) t = (if bool_decide (1 <= N <= n)%Z then 1 else 0).

(** *** Listing the keys and the command line *)

(** [String.prototype.repeat] *)
Fixpoint repeat_string (s : string) (n : nat) : string :=
  match n with
  | O => EmptyString
  | S n' => s +:+ repeat_string s n'
  end.

(** [Array.prototype.forEach] with a callback that has effects. *)
Fixpoint forEach {A : Type} (l : list A) (f : A -> M unit) : M unit :=
  match l with
  | [] => ret tt
  | x :: l' => f x ;;; forEach l' f
  end.

(** The box-drawing characters of the listing (U+2500 and U+2502), kept as
    their UTF-8 bytes. *)
Definition rule : string := repeat_string "─" 70.

Section Listing.

Variable JSON_parse : string -> option json.
Variable JSON_stringify : json -> string.

(** [new Date(text).toLocaleString()], which depends on the locale and the
    time zone of the runtime. *)
Variable toLocaleString : string -> string.

Definition marker (keyStore : KeyStore) (key : KeyPair) : string :=
  let isCurrent := (version key =? currentVersion keyStore)%Z in
  if isCurrent then "  Current " else "  Archived".

Definition key_line (keyStore : KeyStore) (key : KeyPair) : string :=
  marker keyStore key +:+ " │ Version " +:+ show (version key) +:+
  " │ Created: " +:+ toLocaleString (createdAt key).

(** [listKeys] *)
Definition listKeys (env : Env) : M unit :=
  loaded <- loadKeyStore JSON_parse env ;;
  keyStore <- as_typed loaded ;;
  if (List.length (keys keyStore) =? 0)%nat then
    console_log "No keys found in keystore"
  else
    console_log "Stored Keys:" ;;;
    console_log rule ;;;
    forEach (keys keyStore) (fun key => console_log (key_line keyStore key)) ;;;
    console_log rule ;;;
    console_log ("Total: " +:+ show (Z.of_nat (List.length (keys keyStore)))
                 +:+ " key pair(s)" +:+ nl).

Definition usage : M unit :=
  console_log "Usage:" ;;;
  console_log "  deno run --allow-read --allow-write .scripts/key-manager.ts rotate    # Rotate keys (keeps old ones)" ;;;
  console_log "  deno run --allow-read --allow-write .scripts/key-manager.ts list      # List all stored keys".

(** The command line: [switch (Deno.args[0])] at the end of the module. *)
Definition main (env : Env) (args : list string) : M unit :=
  match args with
  | arg :: _ =>
      if arg =? "rotate" then
        rotateKeys JSON_parse JSON_stringify env ;;; ret tt
      else if arg =? "list" then listKeys env
      else usage
  | [] => usage
  end.

End Listing.

(** Every key of the store has its two key files, holding the PEM texts the
    store records for it. *)
Definition key_files_match (w : World) (ks : KeyStore) : Prop :=
  forall k, In k (keys ks) ->
    files w !! privateKeyPath (version k) = Some (privateKey k) /\
    files w !! publicKeyPath (version k) = Some (publicKey k).

(** The console lines of a trace, in order. *)
Fixpoint console_lines (t : list event) : list string :=
  match t with
  | [] => []
  | ConsoleLog text :: t' => text :: console_lines t'
  | ConsoleWarn text :: t' => text :: console_lines t'
  | _ :: t' => console_lines t'
  end.

End KeyManager.

(** ** A concrete JSON codec for examples

    The runtime's [JSON.parse] and [JSON.stringify] are parameters of the
    script.  To run the script on examples they are instantiated with this
    pair, which has the one property the development assumes of the runtime:
    parsing the text written for a store gives the store back. *)

Module SampleJson.
Import KeyManager.

#[global] Instance KeyPair_eq_dec : EqDecision KeyPair.
Proof. solve_decision. Defined.
#[global] Instance KeyStore_eq_dec : EqDecision KeyStore.
Proof. solve_decision. Defined.

#[global] Instance KeyPair_countable : Countable KeyPair :=
  inj_countable'
    (fun k => (privateKey k, publicKey k, createdAt k, version k))
    (fun t => let '(sk, pk, c, v) := t in mkKeyPair sk pk c v)
    (fun k => match k with mkKeyPair _ _ _ _ => eq_refl end).

#[global] Instance KeyStore_countable : Countable KeyStore :=
  inj_countable'
    (fun ks => (currentVersion ks, keys ks))
    (fun t => mkKeyStore t.1 t.2)
    (fun ks => match ks with mkKeyStore _ _ => eq_refl end).

Fixpoint digits (p : positive) : string :=
  match p with
  | xH => EmptyString
  | xO p' => String "0" (digits p')
  | xI p' => String "1" (digits p')
  end.

Fixpoint of_digits (s : string) : option positive :=
  match s with
  | EmptyString => Some xH
  | String c s' =>
      if Ascii.eqb c "0" then xO <$> of_digits s'
      else if Ascii.eqb c "1" then xI <$> of_digits s'
      else None
  end.

Definition stringify (v : json) : string :=
  match as_KeyStore v with
  | Some ks => digits (encode ks)
  | None => "null"
  end.

Definition parse (data : string) : option json :=
  if data =? "null" then Some JNull
  else ks ← of_digits data ≫= decode (A := KeyStore); Some (json_of_KeyStore ks).

End SampleJson.

(** ** Sample environments *)

Module Samples.
Import KeyManager.

Definition pkcs8_bytes : list byte := [x30; x2e; x02; x01; x00].
Definition spki_bytes : list byte := [x30; x2a; x30; x05].

Definition sample_keys : CryptoKeyPair :=
  mkCryptoKeyPair (Some pkcs8_bytes) (Some spki_bytes).

(** Nothing fails. *)
Definition env_ok : Env :=
  mkEnv true (fun _ => false) (fun _ => false) (fun _ => WriteOk)
    (Some sample_keys) "2024-01-01T00:00:00.000Z".

(** The primitive refuses to generate a key. *)
Definition env_no_keygen : Env :=
  mkEnv true (fun _ => false) (fun _ => false) (fun _ => WriteOk)
    None "2024-01-01T00:00:00.000Z".

(** The store file cannot be written; key files can. *)
Definition env_store_denied : Env :=
  mkEnv true (fun _ => false) (fun _ => false)
    (fun path => if path =? KEY_STORE_FILE then WriteDenied else WriteOk)
    (Some sample_keys) "2024-01-02T00:00:00.000Z".

(** The write of the store file breaks off after three characters. *)
Definition env_store_torn : Env :=
  mkEnv true (fun _ => false) (fun _ => false)
    (fun path => if path =? KEY_STORE_FILE then WriteTorn 3 else WriteOk)
    (Some sample_keys) "2024-01-02T00:00:00.000Z".


(** The store file cannot be read. *)
Definition env_store_unreadable : Env :=
  mkEnv true (fun _ => false) (fun path => path =? KEY_STORE_FILE)
    (fun _ => WriteOk) (Some sample_keys) "2024-01-03T00:00:00.000Z".

Definition one_key_store : KeyStore :=
  mkKeyStore 1 [new_key env_ok 1 pkcs8_bytes spki_bytes].

(** A parser that knows two texts: a number, and an object without the
    [keys] property. *)
Definition parse_samples (data : string) : option json :=
  if data =? "42" then Some (JNum 42)
  else if data =? "{ currentVersion: 3 }"
       then Some (JObj [("currentVersion", JNum 3)])
       else None.

(** A stand-in for the runtime's date formatting in the listing. *)
Definition sample_locale (text : string) : string := "1/1/2024, " +:+ text.

(** The world after one rotation from the fresh world. *)
Definition world_after_rotate : World :=
  (rotateKeys SampleJson.parse SampleJson.stringify env_ok fresh).1.

Definition world_with_store (data : string) : World :=
  mkWorld {[KEY_STORE_FILE := data]} ∅ [].

End Samples.

(** * Properties *)

Import Js Pem KeyManager.

(** ** Strings *)

Section Strings.

Lemma str_app_cons (c : ascii) (s t : string) :
  String c s +:+ t = String c (s +:+ t).
Proof. reflexivity. Qed.

Lemma str_app_nil_l (s : string) : "" +:+ s = s.
Proof. reflexivity. Qed.

Lemma str_app_nil_r (s : string) : s +:+ "" = s.
Proof. induction s as [|c s IH]; [reflexivity|]. by rewrite str_app_cons, IH. Qed.

Lemma str_app_assoc (s t u : string) : (s +:+ t) +:+ u = s +:+ (t +:+ u).
Proof.
  induction s as [|c s IH]; [reflexivity|].
  by rewrite !str_app_cons, IH.
Qed.

Lemma str_length_app (s t : string) :
  String.length (s +:+ t) = String.length s + String.length t.
Proof.
  induction s as [|c s IH]; [reflexivity|].
  rewrite str_app_cons. simpl. by rewrite IH.
Qed.

(** Induction three characters at a time, the way [btoa] consumes its input. *)
Lemma string_ind3 (P : string -> Prop) :
  P "" ->
  (forall a, P (String a "")) ->
  (forall a b, P (String a (String b ""))) ->
  (forall a b c rest, P rest -> P (String a (String b (String c rest)))) ->
  forall s, P s.
Proof.
  intros H0 H1 H2 H3 s.
  enough (P s /\ (forall a, P (String a s)) /\ (forall a b, P (String a (String b s))))
    as [? _] by assumption.
  induction s as [|c s (IH0 & IH1 & IH2)]; [by auto|].
  split; [apply IH1|]. split; [intros a; apply IH2|].
  intros a b. apply H3, IH0.
Qed.

End Strings.

(** ** Base64 *)

Section Base64.

Lemma sextet_enum (P : N -> Prop) :
  (forall k : nat, k < 64 -> P (N.of_nat k)) -> forall i : N, (i < 64)%N -> P i.
Proof.
  intros H i Hi. rewrite <- (N2Nat.id i). apply H. lia.
Qed.

Lemma char_sextet_char (i : N) :
  (i < 64)%N -> char_sextet (sextet_char i) = Some i.
Proof.
  revert i. apply sextet_enum. intros k Hk.
  do 64 (destruct k as [|k]; [reflexivity|]). lia.
Qed.

Lemma sextet_char_not_pad (i : N) :
  (i < 64)%N -> Ascii.eqb (sextet_char i) pad = false.
Proof.
  revert i. apply sextet_enum. intros k Hk.
  do 64 (destruct k as [|k]; [reflexivity|]). lia.
Qed.

Lemma group3_sextets (a b c : N) :
  (a < 256)%N -> (b < 256)%N -> (c < 256)%N ->
  let n := (a * 65536 + b * 256 + c)%N in
  (n / 262144 < 64 /\ (n / 4096) mod 64 < 64 /\ (n / 64) mod 64 < 64 /\
   n mod 64 < 64)%N.
Proof.
  intros Ha Hb Hc n. subst n. zify. Z.to_euclidean_division_equations. lia.
Qed.

Lemma group3_join (a b c : N) :
  (a < 256)%N -> (b < 256)%N -> (c < 256)%N ->
  let n := (a * 65536 + b * 256 + c)%N in
  ((((n / 262144) * 64 + (n / 4096) mod 64) * 64 + (n / 64) mod 64) * 64
   + n mod 64 = n)%N.
Proof.
  intros Ha Hb Hc n. subst n. zify. Z.to_euclidean_division_equations. lia.
Qed.

Lemma group3_split (a b c : N) :
  (a < 256)%N -> (b < 256)%N -> (c < 256)%N ->
  let n := (a * 65536 + b * 256 + c)%N in
  (n / 65536 = a /\ (n / 256) mod 256 = b /\ n mod 256 = c)%N.
Proof.
  intros Ha Hb Hc n. subst n. zify. Z.to_euclidean_division_equations. lia.
Qed.

Lemma group2_join (a b : N) :
  (a < 256)%N -> (b < 256)%N ->
  let n := (a * 65536 + b * 256)%N in
  ((((n / 262144) * 64 + (n / 4096) mod 64) * 64 + (n / 64) mod 64) * 64 = n)%N.
Proof.
  intros Ha Hb n. subst n. zify. Z.to_euclidean_division_equations. lia.
Qed.

Lemma group1_join (a : N) :
  (a < 256)%N ->
  let n := (a * 65536)%N in
  (((n / 262144) * 64 + (n / 4096) mod 64) * 4096 = n)%N.
Proof.
  intros Ha n. subst n. zify. Z.to_euclidean_division_equations. lia.
Qed.

Local Arguments N.div : simpl never.
Local Arguments N.modulo : simpl never.
Local Arguments N.mul : simpl never.
Local Arguments N.add : simpl never.
Local Arguments char_sextet : simpl never.
Local Arguments sextet_char : simpl never.
Local Arguments Ascii.eqb : simpl never.
Local Arguments String.eqb : simpl never.
Local Arguments ascii_of_N : simpl never.
Local Arguments N_of_ascii : simpl never.

Local Ltac decode_sextets :=
  repeat first
    [ rewrite char_sextet_char by assumption
    | rewrite sextet_char_not_pad by assumption
    | progress simpl ].

(** Decoding undoes [btoa]. *)
Lemma atob_btoa (s : string) : atob (btoa s) = Some s.
Proof.
  induction s as [|a|a b|a b c rest IH] using string_ind3.
  - reflexivity.
  - pose proof (N_ascii_bounded a) as Ha.
    destruct (group3_sextets (N_of_ascii a) 0 0 Ha) as (S1 & S2 & _); [lia..|].
    pose proof (group1_join _ Ha) as J.
    destruct (group3_split _ 0 0 Ha) as (P1 & _); [lia..|].
    cbv zeta in *. rewrite !N.mul_0_l, !N.add_0_r in *.
    decode_sextets. rewrite J, P1.
    by rewrite ascii_N_embedding.
  - pose proof (N_ascii_bounded a) as Ha. pose proof (N_ascii_bounded b) as Hb.
    destruct (group3_sextets _ _ 0 Ha Hb) as (S1 & S2 & S3 & _); [lia|].
    pose proof (group2_join _ _ Ha Hb) as J.
    destruct (group3_split _ _ 0 Ha Hb) as (P1 & P2 & _); [lia|].
    cbv zeta in *. rewrite !N.add_0_r in *.
    decode_sextets. rewrite J, P1, P2.
    by rewrite !ascii_N_embedding.
  - pose proof (N_ascii_bounded a) as Ha. pose proof (N_ascii_bounded b) as Hb.
    pose proof (N_ascii_bounded c) as Hc.
    destruct (group3_sextets _ _ _ Ha Hb Hc) as (S1 & S2 & S3 & S4).
    pose proof (group3_join _ _ _ Ha Hb Hc) as J.
    destruct (group3_split _ _ _ Ha Hb Hc) as (P1 & P2 & P3).
    cbv zeta in *.
    decode_sextets. rewrite IH. simpl. rewrite J, P1, P2, P3.
    by rewrite !ascii_N_embedding.
Qed.

Lemma base64_char_class (c : ascii) :
  is_base64_char c = true ->
  is_white_space c = false /\ is_line_terminator c = false /\
  not_LF c = true /\ Ascii.eqb c "-" = false.
Proof.
  destruct c as [[] [] [] [] [] [] [] []]; vm_compute; intros H;
    first [discriminate H | by repeat split].
Qed.

Lemma sextet_char_base64 (i : N) :
  (i < 64)%N -> is_base64_char (sextet_char i) = true.
Proof.
  intros Hi. unfold is_base64_char. by rewrite char_sextet_char.
Qed.

Lemma btoa_base64 (s : string) : all_chars is_base64_char (btoa s) = true.
Proof.
  induction s as [|a|a b|a b c rest IH] using string_ind3.
  - reflexivity.
  - pose proof (N_ascii_bounded a) as Ha.
    destruct (group3_sextets (N_of_ascii a) 0 0 Ha) as (S1 & S2 & _); [lia..|].
    cbv zeta in *. rewrite !N.mul_0_l, !N.add_0_r in *.
    simpl. by rewrite !sextet_char_base64.
  - pose proof (N_ascii_bounded a) as Ha. pose proof (N_ascii_bounded b) as Hb.
    destruct (group3_sextets _ _ 0 Ha Hb) as (S1 & S2 & S3 & _); [lia|].
    cbv zeta in *. rewrite !N.add_0_r in *.
    simpl. by rewrite !sextet_char_base64.
  - pose proof (N_ascii_bounded a) as Ha. pose proof (N_ascii_bounded b) as Hb.
    pose proof (N_ascii_bounded c) as Hc.
    destruct (group3_sextets _ _ _ Ha Hb Hc) as (S1 & S2 & S3 & S4).
    cbv zeta in *.
    simpl. by rewrite !sextet_char_base64, IH.
Qed.

End Base64.

(** ** Line wrapping *)

Section LineWrap.

Lemma all_chars_app (p : ascii -> bool) (s t : string) :
  all_chars p (s +:+ t) = all_chars p s && all_chars p t.
Proof.
  induction s as [|c s IH]; [reflexivity|].
  rewrite str_app_cons. simpl. by rewrite IH, andb_assoc.
Qed.

Lemma match_dots_short (n : nat) (s : string) :
  String.length s < n -> match_dots n s = None.
Proof.
  revert s. induction n as [|n IH]; intros s Hlen; [lia|].
  destruct s as [|c s]; [reflexivity|]. simpl in *.
  destruct (is_line_terminator c); [reflexivity|].
  rewrite IH by lia. reflexivity.
Qed.

Lemma match_dots_long (n : nat) (s : string) :
  all_chars is_base64_char s = true -> n <= String.length s ->
  exists m r, match_dots n s = Some (m, r) /\ s = m +:+ r /\
              String.length m = n /\
              all_chars is_base64_char m = true /\
              all_chars is_base64_char r = true.
Proof.
  revert s. induction n as [|n IH]; intros s Hs Hlen.
  - exists "", s. by repeat split.
  - destruct s as [|c s]; [simpl in Hlen; lia|].
    simpl in Hs, Hlen. apply andb_true_iff in Hs as [Hc Hs].
    destruct (IH s Hs) as (m & r & Hm & -> & Hl & Hbm & Hbr); [lia|].
    exists (String c m), r. simpl.
    destruct (base64_char_class c Hc) as (_ & -> & _).
    rewrite Hm, Hl, Hc, Hbm. by repeat split.
Qed.

Lemma replace_dots64_S (fuel : nat) (s : string) :
  replace_dots64 (S fuel) s =
  match match_dots 64 s with
  | Some (m, r) => m +:+ nl +:+ replace_dots64 fuel r
  | None => match s with
            | EmptyString => EmptyString
            | String c s' => String c (replace_dots64 fuel s')
            end
  end.
Proof. reflexivity. Qed.

Lemma replace_dots64_short (fuel : nat) (s : string) :
  String.length s < 64 -> replace_dots64 fuel s = s.
Proof.
  revert s. induction fuel as [|fuel IH]; intros s Hlen; [reflexivity|].
  rewrite replace_dots64_S, match_dots_short by assumption.
  destruct s as [|c s]; [reflexivity|].
  simpl in Hlen. rewrite IH by lia. reflexivity.
Qed.

Lemma replace_dots64_head (fuel : nat) (c : ascii) (s : string) :
  exists y, replace_dots64 fuel (String c s) = String c y.
Proof.
  destruct fuel as [|fuel]; [by eexists|].
  rewrite replace_dots64_S.
  change (match_dots 64 (String c s)) with
    (if is_line_terminator c then None
     else match match_dots 63 s with
          | Some (m, r) => Some (String c m, r)
          | None => None
          end).
  destruct (is_line_terminator c); [by eexists|].
  destruct (match_dots 63 s) as [[m r]|]; by eexists.
Qed.

Lemma trimEnd_base64_app (m t : string) :
  all_chars is_base64_char m = true -> trimEnd (m +:+ t) = m +:+ trimEnd t.
Proof.
  induction m as [|c m IH]; intros Hm; [reflexivity|].
  simpl in Hm. apply andb_true_iff in Hm as [Hc Hm].
  rewrite !str_app_cons. simpl.
  destruct (base64_char_class c Hc) as (-> & _).
  simpl. by rewrite IH.
Qed.

Lemma trimEnd_base64 (s : string) :
  all_chars is_base64_char s = true -> trimEnd s = s.
Proof.
  intros Hs. rewrite <- (str_app_nil_r s) at 1.
  rewrite trimEnd_base64_app by assumption. apply str_app_nil_r.
Qed.

Lemma wrap_at_fits (width room : nat) (s : string) :
  String.length s <= room -> wrap_at width room s = s.
Proof.
  revert room. induction s as [|c s IH]; intros room Hlen; [reflexivity|].
  simpl in Hlen. destruct room as [|room]; [lia|].
  simpl. rewrite IH by lia. reflexivity.
Qed.

Lemma wrap_at_app (width room : nat) (m r : string) :
  wrap_at width (String.length m + room) (m +:+ r) = m +:+ wrap_at width room r.
Proof.
  induction m as [|c m IH]; [reflexivity|].
  rewrite !str_app_cons. simpl. by rewrite IH.
Qed.

(** The replace-and-trim pipeline of [toPEM] on base64 text is the reference
    line wrap. *)
Lemma trimEnd_replace_dots64 (fuel : nat) (s : string) :
  String.length s <= fuel -> all_chars is_base64_char s = true ->
  trimEnd (replace_dots64 fuel s) = wrap64 s.
Proof.
  revert s. induction fuel as [|fuel IH]; intros s Hlen Hs.
  - destruct s; [reflexivity|simpl in Hlen; lia].
  - destruct (lt_dec (String.length s) 64) as [Hshort|Hlong].
    + rewrite replace_dots64_short, trimEnd_base64 by assumption.
      unfold wrap64. rewrite wrap_at_fits by lia. reflexivity.
    + destruct (match_dots_long 64 s Hs) as (m & r & Hm & -> & Hl & Hbm & Hbr);
        [lia|].
      rewrite replace_dots64_S, Hm.
      rewrite str_length_app in Hlen.
      rewrite trimEnd_base64_app by assumption.
      unfold wrap64 at 1.
      replace 64 with (String.length m + 0) at 2 by lia.
      rewrite wrap_at_app. f_equal.
      change (nl +:+ replace_dots64 fuel r)
        with (String LF (replace_dots64 fuel r)).
      change (trimEnd (String LF (replace_dots64 fuel r))) with
        (if is_white_space LF && (trimEnd (replace_dots64 fuel r) =? "")
         then "" else String LF (trimEnd (replace_dots64 fuel r))).
      rewrite IH by (assumption || lia).
      destruct r as [|c r]; reflexivity.
Qed.

Lemma trimStart_replace_dots64 (fuel : nat) (s : string) :
  String.length s <= fuel -> all_chars is_base64_char s = true ->
  trimStart (replace_dots64 fuel s) = replace_dots64 fuel s.
Proof.
  intros Hlen Hs. destruct s as [|c s].
  - destruct fuel; reflexivity.
  - destruct (replace_dots64_head fuel c s) as [y ->].
    simpl in Hs. apply andb_true_iff in Hs as [Hc _].
    simpl. by destruct (base64_char_class c Hc) as (-> & _).
Qed.

Lemma trim_replace_every64 (s : string) :
  all_chars is_base64_char s = true -> trim (replace_every64 s) = wrap64 s.
Proof.
  intros Hs. unfold trim, replace_every64.
  rewrite trimStart_replace_dots64 by (assumption || lia).
  apply trimEnd_replace_dots64; [lia | assumption].
Qed.

End LineWrap.

(** ** Lines of a text *)

Section Lines.

Lemma lines_nonempty (s : string) : exists l ls, lines s = l :: ls.
Proof.
  induction s as [|c s (l & ls & IH)]; [by eexists _, _|].
  simpl. rewrite IH. destruct (Ascii.eqb c LF); by eexists _, _.
Qed.

Lemma lines_cons_LF (s : string) : lines (String LF s) = "" :: lines s.
Proof. destruct (lines_nonempty s) as (l & ls & H). simpl. by rewrite H. Qed.

Lemma lines_cons_other (c : ascii) (s l : string) (ls : list string) :
  not_LF c = true -> lines s = l :: ls -> lines (String c s) = String c l :: ls.
Proof.
  unfold not_LF. intros Hc Hs. simpl. rewrite Hs.
  by destruct (Ascii.eqb c LF).
Qed.

Lemma lines_app_nl (a t : string) :
  all_chars not_LF a = true -> lines (a +:+ nl +:+ t) = a :: lines t.
Proof.
  induction a as [|c a IH]; intros Ha.
  - apply lines_cons_LF.
  - simpl in Ha. apply andb_true_iff in Ha as [Hc Ha].
    rewrite str_app_cons. apply lines_cons_other; auto.
Qed.

Lemma strip_LF_wrap_at (width room : nat) (s : string) :
  all_chars not_LF s = true -> strip_LF (wrap_at width room s) = s.
Proof.
  revert room. induction s as [|c s IH]; intros room Hs; [reflexivity|].
  simpl in Hs. apply andb_true_iff in Hs as [Hc Hs].
  unfold not_LF in Hc. apply negb_true_iff in Hc.
  destruct room; simpl; rewrite Hc, IH by assumption; reflexivity.
Qed.

Lemma wrap_at_body_chars (width room : nat) (s : string) :
  all_chars is_base64_char s = true ->
  all_chars is_body_char (wrap_at width room s) = true.
Proof.
  revert room. induction s as [|c s IH]; intros room Hs; [reflexivity|].
  simpl in Hs. apply andb_true_iff in Hs as [Hc Hs].
  destruct room; simpl; unfold is_body_char at 1; rewrite ?Hc, IH by assumption;
    reflexivity.
Qed.

Lemma base64_not_LF (s : string) :
  all_chars is_base64_char s = true -> all_chars not_LF s = true.
Proof.
  induction s as [|c s IH]; [reflexivity|]. simpl.
  intros [Hc Hs]%andb_true_iff.
  destruct (base64_char_class c Hc) as (_ & _ & -> & _). auto.
Qed.

Lemma wrapped_lines_wrap_at (width room : nat) (pre s : string) :
  1 <= width -> String.length pre + room = width ->
  all_chars not_LF s = true ->
  wrapped_lines width (prepend pre (lines (wrap_at width room s))) = true.
Proof.
  intros Hw. revert room pre.
  induction s as [|c s IH]; intros room pre Hroom Hs.
  - simpl. rewrite str_app_nil_r. apply Nat.leb_le. lia.
  - simpl in Hs. apply andb_true_iff in Hs as [Hc Hs].
    destruct room as [|room].
    + simpl wrap_at. rewrite lines_cons_LF.
      specialize (IH (width - 1) (String c "") ltac:(simpl; lia) Hs).
      destruct (lines_nonempty (wrap_at width (width - 1) s)) as (l & ls & Hl).
      rewrite (lines_cons_other _ _ _ _ Hc Hl). rewrite Hl in IH.
      change (wrapped_lines width (String c l :: ls) = true) in IH.
      simpl prepend. rewrite str_app_nil_r.
      change (wrapped_lines width (pre :: String c l :: ls)) with
        ((String.length pre =? width)%nat &&
         wrapped_lines width (String c l :: ls)).
      rewrite IH, andb_true_r. apply Nat.eqb_eq. lia.
    + simpl wrap_at.
      specialize (IH room (pre +:+ String c "")
                    ltac:(rewrite str_length_app; simpl; lia) Hs).
      destruct (lines_nonempty (wrap_at width room s)) as (l & ls & Hl).
      rewrite (lines_cons_other _ _ _ _ Hc Hl). rewrite Hl in IH.
      simpl prepend in *. by rewrite str_app_assoc in IH.
Qed.

End Lines.

(** ** PEM encoding and the reference decoder *)

Section PemCodec.

Lemma toPEM_unfold (buffer : list byte) (label : string) :
  toPEM buffer label =
  begin_line label +:+ nl +:+
  trim (replace_every64 (btoa (fromCharCode buffer))) +:+ nl +:+
  end_line label +:+ nl.
Proof.
  unfold toPEM, begin_line, end_line. cbv zeta.
  by rewrite !str_app_assoc.
Qed.

Lemma toPEM_wrap64 (buffer : list byte) (label : string) :
  toPEM buffer label =
  begin_line label +:+ nl +:+ wrap64 (btoa (fromCharCode buffer)) +:+ nl +:+
  end_line label +:+ nl.
Proof.
  rewrite toPEM_unfold. by rewrite trim_replace_every64 by apply btoa_base64.
Qed.

(** C8.  [toPEM] is a function of its two arguments; its text is the line
    [-----BEGIN label-----], then the base64 encoding of the buffer wrapped
    at 64 characters (full lines, the last one possibly shorter, and nothing
    but the base64 text once the line feeds are taken out), then the line
    [-----END label-----] and a final line feed. *)
Theorem toPEM_layout (buffer : list byte) (label : string) :
  let base64 := btoa (fromCharCode buffer) in
  toPEM buffer label =
    begin_line label +:+ nl +:+ wrap64 base64 +:+ nl +:+ end_line label +:+ nl
  /\ strip_LF (wrap64 base64) = base64
  /\ wrapped_lines 64 (lines (wrap64 base64)) = true
  /\ (forall buffer' label',
        buffer' = buffer -> label' = label ->
        toPEM buffer' label' = toPEM buffer label).
Proof.
  intros base64. pose proof (btoa_base64 (fromCharCode buffer)) as Hb.
  fold base64 in Hb. repeat split.
  - apply toPEM_wrap64.
  - apply strip_LF_wrap_at, base64_not_LF, Hb.
  - pose proof (wrapped_lines_wrap_at 64 64 "" base64) as H.
    destruct (lines_nonempty (wrap64 base64)) as (l & ls & Hl).
    unfold wrap64 in *. rewrite Hl in *. apply H; [lia | reflexivity |].
    apply base64_not_LF, Hb.
  - by intros ? ? -> ->.
Qed.

Lemma strip_prefix_app (p s : string) : strip_prefix p (p +:+ s) = Some s.
Proof.
  induction p as [|c p IH]; [by destruct s|].
  rewrite str_app_cons. simpl. by rewrite Ascii.eqb_refl.
Qed.

Lemma strip_suffix_eq (suf s : string) :
  strip_suffix suf s =
  if String.eqb s suf then Some ""
  else match s with
       | EmptyString => None
       | String c s' => String c <$> strip_suffix suf s'
       end.
Proof. destruct s; reflexivity. Qed.

Lemma strip_suffix_app (suf l : string) : strip_suffix suf (l +:+ suf) = Some l.
Proof.
  induction l as [|c l IH].
  - by rewrite str_app_nil_l, strip_suffix_eq, String.eqb_refl.
  - rewrite str_app_cons.
    assert (String.eqb (String c (l +:+ suf)) suf = false) as Hne.
    { apply String.eqb_neq. intros Heq.
      apply (f_equal String.length) in Heq. simpl in Heq.
      rewrite str_length_app in Heq. lia. }
    by rewrite strip_suffix_eq, Hne, IH.
Qed.

Lemma delimiter_label_begin (label : string) :
  delimiter_label "BEGIN" (begin_line label) = Some label.
Proof.
  unfold delimiter_label, begin_line.
  change ("-----" +:+ "BEGIN" +:+ " ") with "-----BEGIN ".
  rewrite strip_prefix_app. simpl. apply strip_suffix_app.
Qed.

Lemma delimiter_label_end (label : string) :
  delimiter_label "END" (end_line label) = Some label.
Proof.
  unfold delimiter_label, end_line.
  change ("-----" +:+ "END" +:+ " ") with "-----END ".
  rewrite strip_prefix_app. simpl. apply strip_suffix_app.
Qed.

(** A line of base64 text is not a delimiter. *)
Lemma delimiter_label_base64 (kind l : string) :
  all_chars is_base64_char l = true -> delimiter_label kind l = None.
Proof.
  intros Hl. unfold delimiter_label.
  change ("-----" +:+ kind +:+ " ") with (String "-" ("----" +:+ kind +:+ " ")).
  destruct l as [|c l]; [reflexivity|].
  simpl in Hl. apply andb_true_iff in Hl as [Hc _].
  destruct (base64_char_class c Hc) as (_ & _ & _ & Hd).
  change (strip_prefix (String "-" ("----" +:+ kind +:+ " ")) (String c l))
    with (if Ascii.eqb "-" c then strip_prefix ("----" +:+ kind +:+ " ") l
          else None).
  rewrite Ascii.eqb_sym, Hd. reflexivity.
Qed.

Lemma delimiter_lines_no_LF (label : string) :
  all_chars not_LF label = true ->
  all_chars not_LF (begin_line label) = true /\
  all_chars not_LF (end_line label) = true.
Proof.
  intros Hl. unfold begin_line, end_line.
  rewrite !all_chars_app, Hl. by split.
Qed.

(** The body of an encoded text, read back line by line. *)
Lemma body_until_end_body (label t : string) :
  all_chars not_LF label = true ->
  all_chars is_body_char t = true ->
  exists hd tl,
    lines (t +:+ nl +:+ end_line label +:+ nl) = hd :: tl /\
    all_chars is_base64_char hd = true /\
    body_until_end label (hd :: tl) = Some (strip_LF t).
Proof.
  intros Hlabel. destruct (delimiter_lines_no_LF label Hlabel) as [_ Hend].
  induction t as [|c t IH]; intros Ht.
  - exists "", [end_line label; ""]. split; [|split; [reflexivity|]].
    + rewrite str_app_nil_l.
      change (nl +:+ end_line label +:+ nl)
        with (String LF (end_line label +:+ nl +:+ "")).
      by rewrite lines_cons_LF, lines_app_nl.
    + simpl. rewrite delimiter_label_end, String.eqb_refl. reflexivity.
  - simpl in Ht. apply andb_true_iff in Ht as [Hc Ht].
    destruct (IH Ht) as (hd & tl & Hlines & Hhd & Hbody).
    rewrite str_app_cons. unfold is_body_char in Hc.
    destruct (Ascii.eqb_spec c LF) as [->|Hne].
    + exists "", (hd :: tl). rewrite lines_cons_LF, Hlines.
      split; [reflexivity|]. split; [reflexivity|].
      change (body_until_end label ("" :: hd :: tl)) with
        (String.append "" <$> body_until_end label (hd :: tl)).
      rewrite Hbody. reflexivity.
    + rewrite orb_false_r in Hc.
      destruct (base64_char_class c Hc) as (_ & _ & HnLF & _).
      exists (String c hd), tl.
      rewrite (lines_cons_other _ _ _ _ HnLF Hlines).
      split; [reflexivity|]. split; [simpl; by rewrite Hc, Hhd|].
      simpl in Hbody |- *.
      rewrite delimiter_label_base64 in Hbody by assumption.
      rewrite delimiter_label_base64 by (simpl; by rewrite Hc, Hhd).
      destruct (body_until_end label tl) as [b|]; [|discriminate].
      simpl in Hbody |- *. injection Hbody as <-.
      apply Ascii.eqb_neq in Hne. by rewrite Hne.
Qed.

(** C7, amended.  For every byte buffer and every label without a line feed,
    the reference decoder (strip the delimiter lines, concatenate the body
    lines, base64-decode) gives the buffer back from [toPEM buffer label]. *)
Theorem decode_toPEM (buffer : list byte) (label : string) :
  all_chars not_LF label = true ->
  decode (toPEM buffer label) = Some buffer.
Proof.
  intros Hlabel.
  rewrite toPEM_wrap64.
  pose proof (btoa_base64 (fromCharCode buffer)) as Hb.
  pose proof (strip_LF_wrap_at 64 64 _ (base64_not_LF _ Hb)) as Hstrip.
  fold (wrap64 (btoa (fromCharCode buffer))) in Hstrip.
  destruct (delimiter_lines_no_LF label Hlabel) as [Hbegin _].
  destruct (body_until_end_body label (wrap64 (btoa (fromCharCode buffer))) Hlabel)
    as (hd & tl & Hlines & _ & Hbody).
  { apply wrap_at_body_chars, Hb. }
  unfold decode. rewrite lines_app_nl, Hlines by assumption.
  rewrite delimiter_label_begin.
  change (Some label ≫= ?f) with (f label). cbv beta.
  rewrite Hbody, Hstrip.
  change (Some ?b ≫= ?f) with (f b). cbv beta.
  rewrite atob_btoa. unfold fromCharCode.
  change (?f <$> Some ?x) with (Some (f x)).
  by rewrite list_byte_of_string_of_list_byte.
Qed.

Lemma decode_toPEM_witness :
  decode (toPEM [x30; x2e; x02; x01; x00; xff] "PRIVATE KEY")
  = Some [x30; x2e; x02; x01; x00; xff].
Proof. apply decode_toPEM. reflexivity. Defined.

(** C7 as stated fails: a label with a line feed in it breaks the BEGIN
    delimiter over two lines, and the reference decoder rejects the text. *)
Lemma decode_toPEM_label_with_line_feed :
  decode (toPEM [x01; xff] ("A" +:+ nl +:+ "B")) <> Some [x01; xff].
Proof. vm_compute. discriminate. Qed.

End PemCodec.

(** ** The sample JSON codec *)

Section SampleCodec.

Lemma as_KeyPair_json (k : KeyPair) : as_KeyPair (json_of_KeyPair k) = Some k.
Proof. by destruct k. Qed.

Lemma as_KeyStore_json (ks : KeyStore) : as_KeyStore (json_of_KeyStore ks) = Some ks.
Proof.
  destruct ks as [n l]. unfold as_KeyStore, json_of_KeyStore. simpl.
  assert (mapM as_KeyPair (map json_of_KeyPair l) = Some l) as ->; [|done].
  induction l as [|[sk pk t v] l IH]; [done|].
  simpl in *. by rewrite IH.
Qed.

Lemma of_digits_digits (p : positive) : SampleJson.of_digits (SampleJson.digits p) = Some p.
Proof. induction p as [p IH|p IH|]; simpl; by rewrite ?IH. Qed.

Lemma digits_not_null (p : positive) : String.eqb (SampleJson.digits p) "null" = false.
Proof. by destruct p. Qed.

Lemma sample_parse_stringify (ks : KeyStore) :
  SampleJson.parse (SampleJson.stringify (json_of_KeyStore ks))
  = Some (json_of_KeyStore ks).
Proof.
  unfold SampleJson.parse, SampleJson.stringify.
  rewrite as_KeyStore_json, digits_not_null, of_digits_digits.
  simpl. by rewrite decode_encode.
Qed.

End SampleCodec.

(** ** Loading and saving the store *)

Section StoreFile.

Variable JSON_parse : string -> option json.
Variable JSON_stringify : json -> string.


(** What [loadKeyStore] does, case by case. *)
Lemma loadKeyStore_eq (env : Env) (w : World) :
  loadKeyStore JSON_parse env w =
  if stat_fails env KEY_STORE_FILE
  then (warned w, Returned (json_of_KeyStore empty_store))
  else match files w !! KEY_STORE_FILE with
       | None => (w, Returned (json_of_KeyStore empty_store))
       | Some data =>
           if unreadable env KEY_STORE_FILE
           then (warned w, Returned (json_of_KeyStore empty_store))
           else match JSON_parse data with
                | Some v => (w, Returned v)
                | None => (warned w, Returned (json_of_KeyStore empty_store))
                end
       end.
Proof.
  unfold loadKeyStore, bind, try_catch, exists_, readTextFile, parse.
  destruct (stat_fails env KEY_STORE_FILE); [reflexivity|].
  destruct (files w !! KEY_STORE_FILE) as [data|] eqn:Hfile.
  - rewrite bool_decide_eq_true_2 by eauto.
    destruct (unreadable env KEY_STORE_FILE); [reflexivity|].
    rewrite Hfile. destruct (JSON_parse data); reflexivity.
  - rewrite bool_decide_eq_false_2; [reflexivity|].
    intros [? ?]; discriminate.
Qed.

Lemma writes_to_app (path : string) (t1 t2 : list event) :
  writes_to path (t1 ++ t2) = writes_to path t1 + writes_to path t2.
Proof.
  induction t1 as [|e t1 IH]; [reflexivity|].
  destruct e; simpl; rewrite IH; lia.
Qed.

(** Loading depends on the files only, and leaves them alone. *)
Lemma loadKeyStore_files (env : Env) (w : World) :
  files (loadKeyStore JSON_parse env w).1 = files w /\
  dirs (loadKeyStore JSON_parse env w).1 = dirs w /\
  forall path, writes_to path (trace (loadKeyStore JSON_parse env w).1)
               = writes_to path (trace w).
Proof.
  assert (forall path, writes_to path (trace (warned w)) = writes_to path (trace w))
    as Hwarn.
  { intros path. unfold warned. simpl. rewrite writes_to_app. simpl. lia. }
  rewrite loadKeyStore_eq.
  repeat first [done | case_match].
Qed.

Lemma loadKeyStore_same_files (env : Env) (w1 w2 : World) :
  files w1 = files w2 -> (loadKeyStore JSON_parse env w1).2 = (loadKeyStore JSON_parse env w2).2.
Proof.
  intros Hf. rewrite !loadKeyStore_eq, Hf.
  repeat first [done | case_match].
Qed.

Lemma loadKeyStore_returns (env : Env) (w : World) :
  exists w' v, loadKeyStore JSON_parse env w = (w', Returned v).
Proof. rewrite loadKeyStore_eq. repeat case_match; by eexists _, _. Qed.

(** C5.  [loadKeyStore] always returns: it never throws.  When the store file
    is missing it returns the empty store; when the file cannot be examined or
    read, or its text does not parse, it returns the empty store and warns on
    the console. *)
Theorem loadKeyStore_never_raises (env : Env) (w : World) :
  (exists w' v, loadKeyStore JSON_parse env w = (w', Returned v)) /\
  (files w !! KEY_STORE_FILE = None -> stat_fails env KEY_STORE_FILE = false ->
   loadKeyStore JSON_parse env w = (w, Returned (json_of_KeyStore empty_store))) /\
  (stat_fails env KEY_STORE_FILE = true \/
   (is_Some (files w !! KEY_STORE_FILE) /\ unreadable env KEY_STORE_FILE = true) ->
   loadKeyStore JSON_parse env w = (warned w, Returned (json_of_KeyStore empty_store))) /\
  (forall data,
     files w !! KEY_STORE_FILE = Some data -> JSON_parse data = None ->
     loadKeyStore JSON_parse env w = (warned w, Returned (json_of_KeyStore empty_store))).
Proof.
  split; [apply loadKeyStore_returns|].
  rewrite loadKeyStore_eq. repeat split.
  - by intros -> ->.
  - intros [->|[[data ->] Hu]]; [done|]. rewrite Hu. by case_match.
  - intros data -> ->. by repeat case_match.
Qed.

End StoreFile.

(** ** Creating and rotating keys *)

Section Creation.

Variable JSON_parse : string -> option json.
Variable JSON_stringify : json -> string.

Local Arguments show : simpl never.
Local Arguments previous_versions : simpl never.
Local Arguments createNewKeyPair : simpl never.

Lemma as_KeyPair_inv (v : json) (k : KeyPair) :
  as_KeyPair v = Some k -> v = json_of_KeyPair k.
Proof.
  unfold as_KeyPair. intros H.
  repeat (case_match; try discriminate). simplify_eq.
  repeat match goal with
         | H : _ && _ = true |- _ => apply andb_true_iff in H as [H ?]
         | H : String.eqb _ _ = true |- _ => apply String.eqb_eq in H
         end.
  by subst.
Qed.

Lemma mapM_as_KeyPair_inv (elems : list json) (l : list KeyPair) :
  mapM as_KeyPair elems = Some l -> elems = map json_of_KeyPair l.
Proof.
  revert l. induction elems as [|v elems IH]; intros l H; simpl in H.
  - by injection H as <-.
  - destruct (as_KeyPair v) as [k|] eqn:Hk; [|discriminate].
    destruct (mapM as_KeyPair elems) as [l'|]; [|discriminate].
    injection H as <-. simpl.
    by rewrite (as_KeyPair_inv _ _ Hk), (IH l' eq_refl).
Qed.

Lemma as_KeyStore_inv (v : json) (ks : KeyStore) :
  as_KeyStore v = Some ks -> v = json_of_KeyStore ks.
Proof.
  unfold as_KeyStore. intros H.
  repeat (case_match; try discriminate).
  repeat match goal with
         | H : _ && _ = true |- _ => apply andb_true_iff in H as [H ?]
         | H : String.eqb _ _ = true |- _ => apply String.eqb_eq in H
         end.
  destruct (mapM as_KeyPair _) as [kl|] eqn:Hl; [|discriminate].
  injection H as <-. apply mapM_as_KeyPair_inv in Hl.
  unfold json_of_KeyStore. simpl. by subst.
Qed.

Lemma initKeysDirectory_eq (env : Env) (w : World) :
  initKeysDirectory env w =
  if ensureDir_ok env
  then (mkWorld (files w) ({[KEYS_DIR]} ∪ dirs w)
          ((trace w ++ [EnsureDir KEYS_DIR])
           ++ [ConsoleLog ("Keys directory ready (" +:+ KEYS_DIR +:+ ")")]),
        Returned tt)
  else (w, Thrown (IoFailure KEYS_DIR)).
Proof.
  unfold initKeysDirectory, bind, ensureDir, console_log, emit.
  by destruct (ensureDir_ok env).
Qed.

(** When nothing fails, [createNewKeyPair] appends one key with the next
    version to the loaded store, writes the two key files and the store
    file, and returns the new store. *)
Lemma createNewKeyPair_healthy (env : Env) (w : World) (ks : KeyStore)
    (privateBuf publicBuf : list byte) :
  let v := (currentVersion ks + 1)%Z in
  let k := new_key env v privateBuf publicBuf in
  let ks' := mkKeyStore v (keys ks ++ [k]) in
  (loadKeyStore JSON_parse env w).2 = Returned (json_of_KeyStore ks) ->
  healthy env v privateBuf publicBuf ->
  exists w',
    createNewKeyPair JSON_parse JSON_stringify env w = (w', Returned ks') /\
    files w' =
      <[KEY_STORE_FILE := JSON_stringify (json_of_KeyStore ks')]>
        (<[publicKeyPath v := publicKey k]>
           (<[privateKeyPath v := privateKey k]> (files w))) /\
    forall path,
      writes_to path (trace w') =
      writes_to path (trace w)
      + (if String.eqb (privateKeyPath v) path then 1 else 0)
      + (if String.eqb (publicKeyPath v) path then 1 else 0)
      + (if String.eqb KEY_STORE_FILE path then 1 else 0).
Proof.
  intros v k ks' Hload (Hdir & Hgen & Hpriv & Hpub & Hstore).
  unfold createNewKeyPair, bind. rewrite initKeysDirectory_eq, Hdir.
  set (w0 := mkWorld _ _ _).
  pose proof (loadKeyStore_same_files JSON_parse env w0 w eq_refl) as Hsame.
  destruct (loadKeyStore_files JSON_parse env w0) as (Hf & _ & Hw).
  destruct (loadKeyStore JSON_parse env w0) as [w1 o]. simpl in Hsame, Hf, Hw.
  rewrite Hload in Hsame. subst o.
  unfold as_typed. rewrite as_KeyStore_json.
  unfold ret, console_log, emit, generateKeyPair. rewrite Hgen. simpl.
  unfold saveKeyFiles, saveKeyStore, bind, writeTextFile. simpl.
  fold v. rewrite Hpriv, Hpub. simpl. rewrite Hstore.
  eexists. split; [reflexivity|]. split; [simpl; by rewrite Hf|].
  intros path. simpl. rewrite !writes_to_app, Hw. subst w0. simpl.
  rewrite !writes_to_app. simpl. lia.
Qed.

(** Conversely, [createNewKeyPair] returns only when nothing failed. *)
Lemma createNewKeyPair_returned (env : Env) (w w' : World) (ks' : KeyStore) :
  createNewKeyPair JSON_parse JSON_stringify env w = (w', Returned ks') ->
  exists ks privateBuf publicBuf,
    (loadKeyStore JSON_parse env w).2 = Returned (json_of_KeyStore ks) /\
    healthy env (currentVersion ks + 1) privateBuf publicBuf.
Proof.
  unfold createNewKeyPair, bind. rewrite initKeysDirectory_eq.
  destruct (ensureDir_ok env) eqn:Hdir; [|discriminate].
  set (w0 := mkWorld _ _ _).
  pose proof (loadKeyStore_same_files JSON_parse env w0 w eq_refl) as Hsame.
  destruct (loadKeyStore JSON_parse env w0) as [w1 [v| |]]; try discriminate.
  simpl in Hsame. unfold as_typed.
  destruct (as_KeyStore v) as [ks|] eqn:Hv; [|discriminate].
  apply as_KeyStore_inv in Hv. subst v.
  unfold ret, console_log, emit, generateKeyPair.
  destruct (generateKey env) as [[[privateBuf|] [publicBuf|]]|] eqn:Hgen;
    try discriminate.
  unfold saveKeyFiles, saveKeyStore, bind, writeTextFile, ret. simpl.
  destruct (write_outcome env (privateKeyPath _)) eqn:Hpriv; try discriminate.
  simpl.
  destruct (write_outcome env (publicKeyPath _)) eqn:Hpub; try discriminate.
  simpl.
  destruct (write_outcome env KEY_STORE_FILE) eqn:Hstore; try discriminate.
  intros _. exists ks, privateBuf, publicBuf. by repeat split.
Qed.

Lemma generateKeyPair_error (env : Env) (e : exn) (w : World) :
  keygen_error env = Some e -> generateKeyPair env w = (w, Thrown e).
Proof.
  unfold keygen_error, generateKeyPair.
  destruct (generateKey env) as [[[?|] [?|]]|]; simpl; intros H;
    by simplify_eq.
Qed.

(** When the primitive refuses, [createNewKeyPair] stops before any file is
    written; provided the directory is there and the store loads, what it
    throws is the primitive's failure. *)
Lemma createNewKeyPair_keygen_error (env : Env) (e : exn) (w : World) :
  keygen_error env = Some e ->
  let r := createNewKeyPair JSON_parse JSON_stringify env w in
  files r.1 = files w /\
  (forall path, writes_to path (trace r.1) = writes_to path (trace w)) /\
  (forall ks, r.2 <> Returned ks) /\
  (forall ks, ensureDir_ok env = true ->
     (loadKeyStore JSON_parse env w).2 = Returned (json_of_KeyStore ks) ->
     r.2 = Thrown e).
Proof.
  intros He r. subst r.
  unfold createNewKeyPair, bind. rewrite initKeysDirectory_eq.
  destruct (ensureDir_ok env) eqn:Hdir; [|by repeat split].
  set (w0 := mkWorld _ _ _).
  pose proof (loadKeyStore_same_files JSON_parse env w0 w eq_refl) as Hsame.
  destruct (loadKeyStore_files JSON_parse env w0) as (Hf & _ & Hw0).
  assert (forall path,
            writes_to path (trace (loadKeyStore JSON_parse env w0).1)
            = writes_to path (trace w)) as Hw.
  { intros path. rewrite Hw0. subst w0. simpl.
    rewrite !writes_to_app. simpl. lia. }
  clear Hw0.
  destruct (loadKeyStore JSON_parse env w0) as [w1 [v| |]];
    simpl in Hsame, Hf, Hw.
  - unfold as_typed. destruct (as_KeyStore v) as [ks0|] eqn:Hv.
    + unfold ret, console_log, emit. rewrite (generateKeyPair_error env e) by done.
      simpl. repeat split; try done.
      intros path. rewrite writes_to_app, Hw. simpl. lia.
    + unfold untyped. simpl. repeat split; try done.
      intros ks _ Hl. rewrite <- Hsame in Hl. simplify_eq.
      by rewrite as_KeyStore_json in Hv.
  - simpl. repeat split; try done.
    intros ks _ Hl. rewrite <- Hsame in Hl. discriminate.
  - simpl. repeat split; try done.
    intros ks _ Hl. rewrite <- Hsame in Hl. discriminate.
Qed.

(** [rotateKeys] is [createNewKeyPair] run after a load and some console
    output: same outcome, same files, same file writes; and on a store
    without keys it is exactly the call to [createNewKeyPair]. *)
Lemma rotateKeys_create (env : Env) (w : World) :
  exists v w1,
    loadKeyStore JSON_parse env w = (w1, Returned v) /\
    match as_KeyStore v with
    | None => rotateKeys JSON_parse JSON_stringify env w = (w1, Untyped)
    | Some ks =>
        exists w2,
          files w2 = files w /\
          (forall path, writes_to path (trace w2) = writes_to path (trace w)) /\
          let r := createNewKeyPair JSON_parse JSON_stringify env w2 in
          let r' := rotateKeys JSON_parse JSON_stringify env w in
          r'.2 = r.2 /\ files r'.1 = files r.1 /\
          (forall path, writes_to path (trace r'.1) = writes_to path (trace r.1)) /\
          (keys ks = [] ->
           w2 = mkWorld (files w1) (dirs w1)
                  (trace w1 ++
                   [ConsoleLog "No existing keys found, creating first key pair..."])
           /\ r' = r)
    end.
Proof.
  destruct (loadKeyStore_files JSON_parse env w) as (Hf & _ & Hw).
  unfold rotateKeys, bind.
  destruct (loadKeyStore_returns JSON_parse env w) as (w1 & v & Hl).
  rewrite Hl in *. simpl in Hf, Hw.
  exists v, w1. split; [reflexivity|].
  unfold as_typed. destruct (as_KeyStore v) as [ks|]; [|reflexivity].
  unfold ret, console_log, emit.
  destruct (keys ks) as [|k0 l]; cbn [length Nat.eqb].
  - exists (mkWorld (files w1) (dirs w1)
              (trace w1 ++
               [ConsoleLog "No existing keys found, creating first key pair..."])).
    split; [exact Hf|]. split; [|by repeat split].
    intros path. cbn [trace]. rewrite writes_to_app, Hw. simpl. lia.
  - set (w2 := mkWorld (files (mkWorld _ _ _)) _ _).
    exists w2. split; [exact Hf|]. split; [|cbv zeta].
    + intros path. subst w2. cbn [trace]. rewrite !writes_to_app, Hw. simpl. lia.
    + destruct (createNewKeyPair _ _ _ w2) as [w3 [ks'| |]];
        cbn [fst snd files trace]; repeat split; try done.
      intros path. rewrite !writes_to_app. simpl. lia.
Qed.

Lemma rotateKeys_healthy (env : Env) (w : World) (ks : KeyStore)
    (privateBuf publicBuf : list byte) :
  let v := (currentVersion ks + 1)%Z in
  let k := new_key env v privateBuf publicBuf in
  let ks' := mkKeyStore v (keys ks ++ [k]) in
  (loadKeyStore JSON_parse env w).2 = Returned (json_of_KeyStore ks) ->
  healthy env v privateBuf publicBuf ->
  exists w',
    rotateKeys JSON_parse JSON_stringify env w = (w', Returned ks') /\
    files w' =
      <[KEY_STORE_FILE := JSON_stringify (json_of_KeyStore ks')]>
        (<[publicKeyPath v := publicKey k]>
           (<[privateKeyPath v := privateKey k]> (files w))) /\
    forall path,
      writes_to path (trace w') =
      writes_to path (trace w)
      + (if String.eqb (privateKeyPath v) path then 1 else 0)
      + (if String.eqb (publicKeyPath v) path then 1 else 0)
      + (if String.eqb KEY_STORE_FILE path then 1 else 0).
Proof.
  intros v k ks' Hload Hhealthy.
  destruct (rotateKeys_create env w) as (v0 & w1 & Hl & Hrot).
  rewrite Hl in Hload. simpl in Hload. simplify_eq.
  rewrite as_KeyStore_json in Hrot.
  destruct Hrot as (w2 & Hf2 & Hw2 & Hrot). cbv zeta in Hrot.
  destruct Hrot as (Hout & Hfiles & Hwrites & _).
  destruct (createNewKeyPair_healthy env w2 ks privateBuf publicBuf)
    as (w3 & Hc & Hf3 & Hw3); [|done|].
  { rewrite (loadKeyStore_same_files JSON_parse env w2 w Hf2). by rewrite Hl. }
  rewrite Hc in Hout, Hfiles, Hwrites. simpl in Hout, Hfiles, Hwrites.
  destruct (rotateKeys JSON_parse JSON_stringify env w) as [w' o].
  simpl in Hout, Hfiles, Hwrites. subst o.
  exists w'. split; [reflexivity|]. split.
  - by rewrite Hfiles, Hf3, Hf2.
  - intros path. by rewrite Hwrites, Hw3, Hw2.
Qed.

Lemma rotateKeys_returned (env : Env) (w w' : World) (ks' : KeyStore) :
  rotateKeys JSON_parse JSON_stringify env w = (w', Returned ks') ->
  exists ks privateBuf publicBuf,
    (loadKeyStore JSON_parse env w).2 = Returned (json_of_KeyStore ks) /\
    healthy env (currentVersion ks + 1) privateBuf publicBuf.
Proof.
  intros Hr.
  destruct (rotateKeys_create env w) as (v0 & w1 & Hl & Hrot).
  destruct (as_KeyStore v0) as [ks0|] eqn:Hv; [|by rewrite Hr in Hrot].
  destruct Hrot as (w2 & Hf2 & _ & Hrot). cbv zeta in Hrot.
  destruct Hrot as (Hout & _). rewrite Hr in Hout. simpl in Hout.
  destruct (createNewKeyPair JSON_parse JSON_stringify env w2) as [w3 o] eqn:Hc.
  simpl in Hout. subst o.
  destruct (createNewKeyPair_returned _ _ _ _ Hc) as (ks & pb & qb & Hload & Hh).
  exists ks, pb, qb. split; [|done].
  by rewrite <- (loadKeyStore_same_files JSON_parse env w2 w Hf2).
Qed.

Lemma rotateKeys_keygen_error (env : Env) (e : exn) (w : World) :
  keygen_error env = Some e ->
  let r := rotateKeys JSON_parse JSON_stringify env w in
  files r.1 = files w /\
  (forall path, writes_to path (trace r.1) = writes_to path (trace w)) /\
  (forall ks, r.2 <> Returned ks) /\
  (forall ks, ensureDir_ok env = true ->
     (loadKeyStore JSON_parse env w).2 = Returned (json_of_KeyStore ks) ->
     r.2 = Thrown e).
Proof.
  intros He r. subst r.
  destruct (rotateKeys_create env w) as (v0 & w1 & Hl & Hrot).
  destruct (loadKeyStore_files JSON_parse env w) as (Hf1 & _ & Hw1).
  rewrite Hl in Hf1, Hw1 |- *. simpl in Hf1, Hw1 |- *.
  destruct (as_KeyStore v0) as [ks0|] eqn:Hv.
  - destruct Hrot as (w2 & Hf2 & Hw2 & Hrot). cbv zeta in Hrot.
    destruct Hrot as (Hout & Hfiles & Hwrites & _).
    destruct (createNewKeyPair_keygen_error env e w2 He) as (Cf & Cw & Cr & Ce).
    repeat split.
    + by rewrite Hfiles, Cf.
    + intros path. by rewrite Hwrites, Cw.
    + intros ks. rewrite Hout. apply Cr.
    + intros ks Hdir Hks. rewrite Hout. apply (Ce ks Hdir).
      rewrite (loadKeyStore_same_files JSON_parse env w2 w Hf2).
      by rewrite Hl.
  - rewrite Hrot. simpl. repeat split; try done.
    intros ks _ Hks. simplify_eq. by rewrite as_KeyStore_json in Hv.
Qed.

End Creation.

(** ** The store invariant *)

Section Invariant.

Lemma max_version_snoc (l : list KeyPair) (k : KeyPair) :
  max_version (l ++ [k]) = Z.max (max_version l) (Z.max (version k) 0).
Proof.
  unfold max_version. induction l as [|k0 l IH]; simpl; [lia|].
  rewrite IH. lia.
Qed.

Lemma max_version_nonneg (l : list KeyPair) : (0 <= max_version l)%Z.
Proof. unfold max_version. induction l as [|k0 l IH]; simpl; lia. Qed.

Lemma store_inv_empty : store_inv empty_store.
Proof. repeat split. constructor. Qed.

Lemma store_inv_snoc (ks : KeyStore) (k : KeyPair) :
  store_inv ks -> version k = (currentVersion ks + 1)%Z ->
  store_inv (mkKeyStore (currentVersion ks + 1) (keys ks ++ [k])).
Proof.
  intros (Hmax & _ & Hseq) Hk.
  pose proof (max_version_nonneg (keys ks)) as Hnn. rewrite <- Hmax in Hnn.
  assert (map version (keys ks ++ [k]) = seqZ 1 (currentVersion ks + 1)) as Hseq'.
  { rewrite map_app, Hseq, seqZ_app by lia. simpl. rewrite Hk.
    f_equal. rewrite seqZ_cons, seqZ_nil by lia. f_equal. lia. }
  repeat split; simpl.
  - rewrite max_version_snoc, <- Hmax, Hk. lia.
  - rewrite Hseq'. apply NoDup_seqZ.
  - exact Hseq'.
Qed.

Lemma json_of_KeyStore_inj (ks1 ks2 : KeyStore) :
  json_of_KeyStore ks1 = json_of_KeyStore ks2 -> ks1 = ks2.
Proof.
  intros H. apply (f_equal as_KeyStore) in H.
  rewrite !as_KeyStore_json in H. by simplify_eq.
Qed.

Variable JSON_parse : string -> option json.
Variable JSON_stringify : json -> string.

(** The one assumption on the runtime's JSON functions: the text written for
    a store parses back to it. *)
Hypothesis parse_stringify :
  forall ks, JSON_parse (JSON_stringify (json_of_KeyStore ks))
             = Some (json_of_KeyStore ks).

Lemma load_persisted (env : Env) (w : World) (ks : KeyStore) :
  persisted JSON_stringify w ks ->
  (loadKeyStore JSON_parse env w).2 = Returned (json_of_KeyStore ks) \/
  (loadKeyStore JSON_parse env w).2 = Returned (json_of_KeyStore empty_store).
Proof.
  unfold persisted. rewrite loadKeyStore_eq.
  destruct (stat_fails env KEY_STORE_FILE); [by right|].
  destruct (files w !! KEY_STORE_FILE) as [data|]; [|intros ->; by left].
  intros ->. destruct (unreadable env KEY_STORE_FILE); [by right|].
  rewrite parse_stringify. by left.
Qed.

Lemma load_persisted_readable (env : Env) (w : World) (ks : KeyStore) :
  store_readable env -> persisted JSON_stringify w ks ->
  (loadKeyStore JSON_parse env w).2 = Returned (json_of_KeyStore ks).
Proof.
  intros [Hs Hu]. unfold persisted. rewrite loadKeyStore_eq, Hs.
  destruct (files w !! KEY_STORE_FILE) as [data|]; [|by intros ->].
  intros ->. by rewrite Hu, parse_stringify.
Qed.

(** What a load returns in a world whose store file satisfies the invariant. *)
Lemma load_store_inv (env : Env) (w : World) :
  (exists ks, persisted JSON_stringify w ks /\ store_inv ks) ->
  exists ks, (loadKeyStore JSON_parse env w).2 = Returned (json_of_KeyStore ks)
             /\ store_inv ks.
Proof.
  intros (ks & Hp & Hinv).
  destruct (load_persisted env w ks Hp) as [H|H]; eauto using store_inv_empty.
Qed.

Lemma create_store_inv (env : Env) (w w' : World) (ks' : KeyStore) :
  (exists ks, persisted JSON_stringify w ks /\ store_inv ks) ->
  createNewKeyPair JSON_parse JSON_stringify env w = (w', Returned ks') ->
  persisted JSON_stringify w' ks' /\ store_inv ks'.
Proof.
  intros Hw Hc.
  destruct (load_store_inv env w Hw) as (ks & Hload & Hinv).
  destruct (createNewKeyPair_returned _ _ _ _ _ _ Hc) as (ks0 & pb & qb & Hload0 & Hh).
  assert (ks = ks0) as <- by (apply json_of_KeyStore_inj; congruence).
  destruct (createNewKeyPair_healthy JSON_parse JSON_stringify env w ks pb qb
              Hload Hh) as (w'' & Hc' & Hf & _).
  rewrite Hc in Hc'. simplify_eq. split.
  - unfold persisted. by rewrite Hf, lookup_insert_eq.
  - by apply store_inv_snoc.
Qed.

Lemma rotate_store_inv (env : Env) (w w' : World) (ks' : KeyStore) :
  (exists ks, persisted JSON_stringify w ks /\ store_inv ks) ->
  rotateKeys JSON_parse JSON_stringify env w = (w', Returned ks') ->
  persisted JSON_stringify w' ks' /\ store_inv ks'.
Proof.
  intros Hw Hc.
  destruct (load_store_inv env w Hw) as (ks & Hload & Hinv).
  destruct (rotateKeys_returned _ _ _ _ _ _ Hc) as (ks0 & pb & qb & Hload0 & Hh).
  assert (ks = ks0) as <- by (apply json_of_KeyStore_inj; congruence).
  destruct (rotateKeys_healthy JSON_parse JSON_stringify env w ks pb qb
              Hload Hh) as (w'' & Hc' & Hf & _).
  rewrite Hc in Hc'. simplify_eq. split.
  - unfold persisted. by rewrite Hf, lookup_insert_eq.
  - by apply store_inv_snoc.
Qed.

Lemma load_keeps_persisted (env : Env) (w w' : World) (v : json) (ks : KeyStore) :
  loadKeyStore JSON_parse env w = (w', Returned v) ->
  persisted JSON_stringify w ks -> persisted JSON_stringify w' ks.
Proof.
  intros Hl. destruct (loadKeyStore_files JSON_parse env w) as (Hf & _).
  rewrite Hl in Hf. simpl in Hf. unfold persisted. by rewrite Hf.
Qed.

Lemma reachable_store_inv (admits : Env -> Prop) (w : World) :
  reachable JSON_parse JSON_stringify admits w ->
  exists ks, persisted JSON_stringify w ks /\ store_inv ks.
Proof.
  intros Hreach.
  induction Hreach as [|env w0 w1 v Hreach IH Ha Hl|env w0 w1 ks Hreach IH Ha Hc
                       |env w0 w1 ks Hreach IH Ha Hr].
  - exists empty_store. split; [reflexivity | apply store_inv_empty].
  - destruct IH as (ks & Hp & Hinv). exists ks.
    eauto using load_keeps_persisted.
  - exists ks. eauto using create_store_inv.
  - exists ks. eauto using rotate_store_inv.
Qed.

(** C1.  In every world reached from the fresh one by operations that return
    normally, the persisted store satisfies the store invariant
    ([currentVersion] is the largest version, or 0 without keys; versions are
    unique and run 1, 2, ..., [currentVersion] in the order of the keys), and
    so does the store that any further load, creation or rotation returns. *)
Theorem store_invariant (w : World) :
  reachable JSON_parse JSON_stringify any_env w ->
  (exists ks, persisted JSON_stringify w ks /\ store_inv ks) /\
  forall env,
    (forall w' v, loadKeyStore JSON_parse env w = (w', Returned v) ->
       exists ks, v = json_of_KeyStore ks /\ store_inv ks) /\
    (forall w' ks, createNewKeyPair JSON_parse JSON_stringify env w = (w', Returned ks) ->
       store_inv ks) /\
    (forall w' ks, rotateKeys JSON_parse JSON_stringify env w = (w', Returned ks) ->
       store_inv ks).
Proof.
  intros Hreach. pose proof (reachable_store_inv _ _ Hreach) as Hw.
  split; [exact Hw|]. intros env. split; [|split].
  - intros w' v Hl. destruct (load_store_inv env w Hw) as (ks & Hload & Hinv).
    rewrite Hl in Hload. simpl in Hload. exists ks. split; [congruence|done].
  - intros w' ks Hc. by destruct (create_store_inv env w w' ks Hw Hc).
  - intros w' ks Hr. by destruct (rotate_store_inv env w w' ks Hw Hr).
Qed.

End Invariant.

(** ** Rotation *)

Section Rotation.

Variable JSON_parse : string -> option json.
Variable JSON_stringify : json -> string.

(** C2.  Let the store that loads be [ks], not empty, with the store
    invariant and [currentVersion ks = v].  If nothing fails, [rotateKeys]
    returns; and whenever it returns, the store it returns has
    [currentVersion = v + 1] and the keys of [ks] followed by exactly one new
    key of version [v + 1]: every earlier key is at its position, unchanged.
    The new store satisfies the invariant and is the one persisted. *)
Theorem rotate_appends_one_key (env : Env) (w : World) (ks : KeyStore) (v : Z) :
  keys ks <> [] -> currentVersion ks = v -> store_inv ks ->
  (loadKeyStore JSON_parse env w).2 = Returned (json_of_KeyStore ks) ->
  (forall privateBuf publicBuf,
     healthy env (v + 1) privateBuf publicBuf ->
     exists w', rotateKeys JSON_parse JSON_stringify env w
                = (w', Returned (mkKeyStore (v + 1)
                                   (keys ks ++ [new_key env (v + 1) privateBuf publicBuf])))) /\
  (forall w' ks',
     rotateKeys JSON_parse JSON_stringify env w = (w', Returned ks') ->
     currentVersion ks' = (v + 1)%Z /\
     (exists k, keys ks' = (keys ks ++ [k])%list /\ version k = (v + 1)%Z) /\
     List.length (keys ks') = S (List.length (keys ks)) /\
     (forall i k0, keys ks !! i = Some k0 -> keys ks' !! i = Some k0) /\
     store_inv ks' /\
     persisted JSON_stringify w' ks').
Proof.
  intros Hne <- Hinv Hload. split.
  - intros pb qb Hh.
    destruct (rotateKeys_healthy JSON_parse JSON_stringify env w ks pb qb Hload Hh)
      as (w' & Hr & _). eauto.
  - intros w' ks' Hr.
    destruct (rotateKeys_returned _ _ _ _ _ _ Hr) as (ks0 & pb & qb & Hload0 & Hh).
    assert (ks = ks0) as <- by (apply json_of_KeyStore_inj; congruence).
    destruct (rotateKeys_healthy JSON_parse JSON_stringify env w ks pb qb Hload Hh)
      as (w'' & Hr' & Hf & _).
    rewrite Hr in Hr'. simplify_eq. simpl.
    split; [done|]. split; [by eexists|]. split; [|split; [|split]].
    + rewrite length_app. simpl. lia.
    + intros i k0 Hi. by apply lookup_app_l_Some.
    + by apply store_inv_snoc.
    + unfold persisted. by rewrite Hf, lookup_insert_eq.
Qed.

(** C3.  Let the store that loads be the empty store.  [rotateKeys] then is
    the call to [createNewKeyPair] (after one console line); if nothing
    fails it returns, and whenever it returns, the store it returns has
    exactly one key, of version 1, and [currentVersion = 1]. *)
Theorem rotate_empty_store (env : Env) (w : World) :
  (loadKeyStore JSON_parse env w).2 = Returned (json_of_KeyStore empty_store) ->
  (let w1 := (loadKeyStore JSON_parse env w).1 in
   rotateKeys JSON_parse JSON_stringify env w
   = createNewKeyPair JSON_parse JSON_stringify env
       (mkWorld (files w1) (dirs w1)
          (trace w1 ++
           [ConsoleLog "No existing keys found, creating first key pair..."]))) /\
  (forall privateBuf publicBuf,
     healthy env 1 privateBuf publicBuf ->
     exists w', rotateKeys JSON_parse JSON_stringify env w
                = (w', Returned (mkKeyStore 1 [new_key env 1 privateBuf publicBuf]))) /\
  (forall w' ks',
     rotateKeys JSON_parse JSON_stringify env w = (w', Returned ks') ->
     currentVersion ks' = 1%Z /\ exists k, keys ks' = [k] /\ version k = 1%Z).
Proof.
  intros Hload. split; [|split].
  - destruct (rotateKeys_create JSON_parse JSON_stringify env w)
      as (v0 & w1 & Hl & Hrot).
    rewrite Hl in Hload |- *. simpl in Hload |- *. simplify_eq.
    change (JObj _) with (json_of_KeyStore empty_store) in Hrot.
    rewrite as_KeyStore_json in Hrot.
    destruct Hrot as (w2 & _ & _ & Hrot). cbv zeta in Hrot.
    destruct Hrot as (_ & _ & _ & Hdel). by destruct (Hdel eq_refl) as [-> ->].
  - intros pb qb Hh.
    destruct (rotateKeys_healthy JSON_parse JSON_stringify env w empty_store pb qb
                Hload Hh) as (w' & Hr & _). eauto.
  - intros w' ks' Hr.
    destruct (rotateKeys_returned _ _ _ _ _ _ Hr) as (ks0 & pb & qb & Hload0 & Hh).
    assert (empty_store = ks0) as <- by (apply json_of_KeyStore_inj; congruence).
    destruct (rotateKeys_healthy JSON_parse JSON_stringify env w empty_store pb qb
                Hload Hh) as (w'' & Hr' & _).
    rewrite Hr in Hr'. simplify_eq. simpl. split; [done|]. by eexists.
Qed.

(** C6.  When the primitive refuses to generate or to export a key,
    [generateKeyPair] throws; [createNewKeyPair] and [rotateKeys] then do not
    return, leave every file as it was and write none; and where the keys
    directory is available and the store loads, what they throw is the
    failure of the primitive. *)
Theorem keygen_failure_mutates_nothing (env : Env) (e : exn) (w : World) :
  keygen_error env = Some e ->
  generateKeyPair env w = (w, Thrown e) /\
  (let r := createNewKeyPair JSON_parse JSON_stringify env w in
   files r.1 = files w /\
   (forall path, writes_to path (trace r.1) = writes_to path (trace w)) /\
   (forall ks, r.2 <> Returned ks) /\
   (forall ks, ensureDir_ok env = true ->
      (loadKeyStore JSON_parse env w).2 = Returned (json_of_KeyStore ks) ->
      r.2 = Thrown e)) /\
  (let r := rotateKeys JSON_parse JSON_stringify env w in
   files r.1 = files w /\
   (forall path, writes_to path (trace r.1) = writes_to path (trace w)) /\
   (forall ks, r.2 <> Returned ks) /\
   (forall ks, ensureDir_ok env = true ->
      (loadKeyStore JSON_parse env w).2 = Returned (json_of_KeyStore ks) ->
      r.2 = Thrown e)).
Proof.
  intros He. split; [by apply generateKeyPair_error|]. split.
  - by apply createNewKeyPair_keygen_error.
  - by apply rotateKeys_keygen_error.
Qed.

End Rotation.

(** ** Paths of the key files *)

Section Paths.

Lemma str_app_inj_r (s t u : string) : s +:+ u = t +:+ u -> s = t.
Proof.
  intros H. apply (f_equal (strip_suffix u)) in H.
  rewrite !strip_suffix_app in H. congruence.
Qed.

Lemma show_inj (a b : Z) : show a = show b -> a = b.
Proof.
  unfold show. intros H. apply DecimalZ.to_int_inj.
  assert (forall n, NilZero.int_of_string (NilZero.string_of_int (Z.to_int n))
                    = Some (Z.to_int n)) as Hisi.
  { intros n. apply NilZero.isi; destruct n; simpl; try discriminate;
      intros [= Hn]; by apply DecimalPos.Unsigned.to_uint_nonnil in Hn. }
  apply (f_equal NilZero.int_of_string) in H. rewrite !Hisi in H. congruence.
Qed.

Lemma privateKeyPath_inj (a b : Z) : privateKeyPath a = privateKeyPath b -> a = b.
Proof.
  unfold privateKeyPath, join. intros H.
  do 3 apply (inj (String.append _)) in H.
  by apply str_app_inj_r, show_inj in H.
Qed.

Lemma publicKeyPath_inj (a b : Z) : publicKeyPath a = publicKeyPath b -> a = b.
Proof.
  unfold publicKeyPath, join. intros H.
  do 3 apply (inj (String.append _)) in H.
  by apply str_app_inj_r, show_inj in H.
Qed.

Lemma private_not_public (a b : Z) : privateKeyPath a <> publicKeyPath b.
Proof.
  unfold privateKeyPath, publicKeyPath, join. intros H.
  do 2 apply (inj (String.append _)) in H.
  injection H as H. discriminate H.
Qed.

Lemma store_not_private (a : Z) : KEY_STORE_FILE <> privateKeyPath a.
Proof.
  unfold privateKeyPath, KEY_STORE_FILE, join. intros H.
  do 2 apply (inj (String.append _)) in H. discriminate H.
Qed.

Lemma store_not_public (a : Z) : KEY_STORE_FILE <> publicKeyPath a.
Proof.
  unfold publicKeyPath, KEY_STORE_FILE, join. intros H.
  do 2 apply (inj (String.append _)) in H. discriminate H.
Qed.

End Paths.

(** ** Writes of the key files *)

Section KeyFiles.

Variable JSON_parse : string -> option json.
Variable JSON_stringify : json -> string.

Hypothesis parse_stringify :
  forall ks, JSON_parse (JSON_stringify (json_of_KeyStore ks))
             = Some (json_of_KeyStore ks).

Lemma key_files_written_next (n : Z) (t t' : list event) :
  (0 <= n)%Z ->
  key_files_written n t ->
  (forall path,
     writes_to path t' =
     writes_to path t
     + (if String.eqb (privateKeyPath (n + 1)) path then 1 else 0)
     + (if String.eqb (publicKeyPath (n + 1)) path then 1 else 0)
     + (if String.eqb KEY_STORE_FILE path then 1 else 0)) ->
  key_files_written (n + 1) t'.
Proof.
  intros Hn Hold Hnew N. destruct (Hold N) as [Hpriv Hpub].
  rewrite !Hnew, Hpriv, Hpub. split.
  - destruct (String.eqb_spec (privateKeyPath (n + 1)) (privateKeyPath N)) as [He|He];
      [apply privateKeyPath_inj in He|];
      destruct (String.eqb_spec (publicKeyPath (n + 1)) (privateKeyPath N)) as [He'|_];
      try (symmetry in He'; by apply private_not_public in He');
      destruct (String.eqb_spec KEY_STORE_FILE (privateKeyPath N)) as [He'|_];
      try (by apply store_not_private in He');
      repeat case_bool_decide; try lia.
    exfalso. apply He. f_equal. lia.
  - destruct (String.eqb_spec (publicKeyPath (n + 1)) (publicKeyPath N)) as [He|He];
      [apply publicKeyPath_inj in He|];
      destruct (String.eqb_spec (privateKeyPath (n + 1)) (publicKeyPath N)) as [He'|_];
      try (by apply private_not_public in He');
      destruct (String.eqb_spec KEY_STORE_FILE (publicKeyPath N)) as [He'|_];
      try (by apply store_not_public in He');
      repeat case_bool_decide; try lia.
    exfalso. apply He. f_equal. lia.
Qed.

Lemma reachable_key_files (w : World) :
  reachable JSON_parse JSON_stringify store_readable w ->
  exists ks, persisted JSON_stringify w ks /\ store_inv ks /\
             key_files_written (currentVersion ks) (trace w).
Proof.
  intros Hreach.
  induction Hreach as [|env w0 w1 v Hreach IH Ha Hl|env w0 w1 ks' Hreach IH Ha Hc
                       |env w0 w1 ks' Hreach IH Ha Hr].
  - exists empty_store. split; [reflexivity|]. split; [apply store_inv_empty|].
    intros N. simpl. by case_bool_decide; [lia|].
  - destruct IH as (ks & Hp & Hinv & Hk). exists ks.
    split; [eauto using load_keeps_persisted|]. split; [done|].
    destruct (loadKeyStore_files JSON_parse env w0) as (_ & _ & Hw).
    rewrite Hl in Hw. simpl in Hw. intros N. rewrite !Hw. apply Hk.
  - destruct IH as (ks & Hp & Hinv & Hk).
    pose proof (load_persisted_readable _ _ parse_stringify env w0 ks Ha Hp) as Hload.
    destruct (createNewKeyPair_returned _ _ _ _ _ _ Hc) as (ks0 & pb & qb & Hload0 & Hh).
    assert (ks = ks0) as <- by (apply json_of_KeyStore_inj; congruence).
    destruct (createNewKeyPair_healthy JSON_parse JSON_stringify env w0 ks pb qb
                Hload Hh) as (w'' & Hc' & Hf & Hw).
    rewrite Hc in Hc'. simplify_eq.
    eexists. split; [|split].
    + unfold persisted. by rewrite Hf, lookup_insert_eq.
    + by apply store_inv_snoc.
    + simpl. apply (key_files_written_next _ (trace w0)); [|done|done].
      destruct Hinv as (-> & _). apply max_version_nonneg.
  - destruct IH as (ks & Hp & Hinv & Hk).
    pose proof (load_persisted_readable _ _ parse_stringify env w0 ks Ha Hp) as Hload.
    destruct (rotateKeys_returned _ _ _ _ _ _ Hr) as (ks0 & pb & qb & Hload0 & Hh).
    assert (ks = ks0) as <- by (apply json_of_KeyStore_inj; congruence).
    destruct (rotateKeys_healthy JSON_parse JSON_stringify env w0 ks pb qb
                Hload Hh) as (w'' & Hr' & Hf & Hw).
    rewrite Hr in Hr'. simplify_eq.
    eexists. split; [|split].
    + unfold persisted. by rewrite Hf, lookup_insert_eq.
    + by apply store_inv_snoc.
    + simpl. apply (key_files_written_next _ (trace w0)); [|done|done].
      destruct Hinv as (-> & _). apply max_version_nonneg.
Qed.

(** C9, amended.  In every world reached from the fresh one by operations
    that return normally and can read the store file, each key file
    [private-vN.pem] and [public-vN.pem] has been written at most once:
    exactly once for the versions 1 to [currentVersion] of the persisted
    store, and never for any other. *)
Theorem key_files_written_once (w : World) :
  reachable JSON_parse JSON_stringify store_readable w ->
  (forall N, writes_to (privateKeyPath N) (trace w) <= 1 /\
             writes_to (publicKeyPath N) (trace w) <= 1) /\
  exists ks, persisted JSON_stringify w ks /\
             key_files_written (currentVersion ks) (trace w).
Proof.
  intros Hreach.
  destruct (reachable_key_files w Hreach) as (ks & Hp & _ & Hk).
  split; [|eauto].
  intros N. destruct (Hk N) as [-> ->]. by case_bool_decide; split; lia.
Qed.

End KeyFiles.

(** ** Persistence *)

Section Persistence.

Variable JSON_parse : string -> option json.
Variable JSON_stringify : json -> string.

(** C4, amended.  [saveKeyStore] is one [Deno.writeTextFile] call on the
    store file itself: no other path is touched (no temporary file, no
    rename).  When the call succeeds the file holds the whole text; when it
    is refused nothing changes; when it breaks off part-way the file is left
    holding the part of the text written so far. *)
Theorem saveKeyStore_writes_in_place (env : Env) (ks : KeyStore) (w : World) :
  let text := JSON_stringify (json_of_KeyStore ks) in
  let r := saveKeyStore JSON_stringify env ks w in
  (forall path, path <> KEY_STORE_FILE -> files r.1 !! path = files w !! path) /\
  match write_outcome env KEY_STORE_FILE with
  | WriteOk =>
      r.2 = Returned tt /\ files r.1 !! KEY_STORE_FILE = Some text /\
      trace r.1 = (trace w ++ [FileWrite KEY_STORE_FILE text])%list
  | WriteDenied => r = (w, Thrown (IoFailure KEY_STORE_FILE))
  | WriteTorn n =>
      r.2 = Thrown (IoFailure KEY_STORE_FILE) /\
      files r.1 !! KEY_STORE_FILE = Some (String.substring 0 n text) /\
      trace r.1 = (trace w ++ [FileWrite KEY_STORE_FILE (String.substring 0 n text)])%list
  end.
Proof.
  intros text r. subst r. unfold saveKeyStore, writeTextFile. fold text.
  destruct (write_outcome env KEY_STORE_FILE); cbn [fst snd files trace].
  - split; [intros path Hp; by rewrite lookup_insert_ne|].
    by rewrite lookup_insert_eq.
  - by split.
  - split; [intros path Hp; by rewrite lookup_insert_ne|].
    by rewrite lookup_insert_eq.
Qed.

Lemma empty_store_has_shape : has_KeyStore_shape (json_of_KeyStore empty_store) = true.
Proof. reflexivity. Qed.

(** C10.  [loadKeyStore] does not check the shape of what it parsed: when the
    text of the store file parses to a value that does not have the
    [KeyStore] shape, that value is returned as it is, not the empty store. *)
Theorem loadKeyStore_no_shape_check (env : Env) (w : World) (data : string) (v : json) :
  stat_fails env KEY_STORE_FILE = false ->
  unreadable env KEY_STORE_FILE = false ->
  files w !! KEY_STORE_FILE = Some data ->
  JSON_parse data = Some v ->
  has_KeyStore_shape v = false ->
  loadKeyStore JSON_parse env w = (w, Returned v) /\
  v <> json_of_KeyStore empty_store.
Proof.
  intros Hs Hu Hf Hp Hshape. rewrite loadKeyStore_eq, Hs, Hf, Hu, Hp.
  split; [reflexivity|]. intros ->. by rewrite empty_store_has_shape in Hshape.
Qed.

End Persistence.

(** ** The properties on the sample environments *)

Section Witnesses.
Import Samples.

Lemma world_after_rotate_eq :
  rotateKeys SampleJson.parse SampleJson.stringify env_ok fresh
  = (world_after_rotate, Returned one_key_store).
Proof. vm_compute. reflexivity. Qed.

Lemma world_after_rotate_reachable (admits : Env -> Prop) :
  admits env_ok ->
  reachable SampleJson.parse SampleJson.stringify admits world_after_rotate.
Proof.
  intros Ha. eapply reach_rotate; [apply reach_fresh | exact Ha |].
  apply world_after_rotate_eq.
Qed.

Lemma store_inv_one_key_store : store_inv one_key_store.
Proof.
  repeat split. apply NoDup_cons. split; [set_solver | apply NoDup_nil_2].
Qed.

Lemma load_after_rotate :
  (loadKeyStore SampleJson.parse env_ok world_after_rotate).2
  = Returned (json_of_KeyStore one_key_store).
Proof. vm_compute. reflexivity. Qed.

Lemma env_ok_healthy (v : Z) : healthy env_ok v pkcs8_bytes spki_bytes.
Proof. by repeat split. Qed.

Lemma store_invariant_witness :
  reachable SampleJson.parse SampleJson.stringify any_env world_after_rotate /\
  exists ks, persisted SampleJson.stringify world_after_rotate ks /\ store_inv ks.
Proof.
  split; [by apply world_after_rotate_reachable|].
  apply (store_invariant SampleJson.parse SampleJson.stringify
           sample_parse_stringify world_after_rotate).
  by apply world_after_rotate_reachable.
Defined.

Lemma rotate_appends_one_key_witness :
  exists w',
    rotateKeys SampleJson.parse SampleJson.stringify env_ok world_after_rotate
    = (w', Returned (mkKeyStore 2
                       (keys one_key_store ++
                        [new_key env_ok 2 pkcs8_bytes spki_bytes]))).
Proof.
  apply (rotate_appends_one_key SampleJson.parse SampleJson.stringify env_ok
           world_after_rotate one_key_store 1).
  - discriminate.
  - reflexivity.
  - apply store_inv_one_key_store.
  - apply load_after_rotate.
  - apply env_ok_healthy.
Defined.

Lemma rotate_empty_store_witness :
  exists w',
    rotateKeys SampleJson.parse SampleJson.stringify env_ok fresh
    = (w', Returned (mkKeyStore 1 [new_key env_ok 1 pkcs8_bytes spki_bytes])).
Proof.
  apply (rotate_empty_store SampleJson.parse SampleJson.stringify env_ok fresh).
  - reflexivity.
  - apply env_ok_healthy.
Defined.

Lemma saveKeyStore_writes_in_place_witness :
  files (saveKeyStore SampleJson.stringify env_ok one_key_store fresh).1
    !! privateKeyPath 1 = files fresh !! privateKeyPath 1.
Proof.
  apply (saveKeyStore_writes_in_place SampleJson.stringify env_ok one_key_store fresh).
  intros H. symmetry in H. by apply store_not_private in H.
Defined.

Lemma loadKeyStore_never_raises_witness :
  loadKeyStore parse_samples env_ok (world_with_store "{ currentVersion")
  = (warned (world_with_store "{ currentVersion"),
     Returned (json_of_KeyStore empty_store)).
Proof.
  apply (loadKeyStore_never_raises parse_samples env_ok
           (world_with_store "{ currentVersion")) with (data := "{ currentVersion");
    reflexivity.
Defined.

Lemma keygen_failure_mutates_nothing_witness :
  let r := rotateKeys SampleJson.parse SampleJson.stringify env_no_keygen
             world_after_rotate in
  files r.1 = files world_after_rotate /\
  r.2 = Thrown (CryptoFailure "generateKey").
Proof.
  destruct (keygen_failure_mutates_nothing SampleJson.parse SampleJson.stringify
              env_no_keygen (CryptoFailure "generateKey") world_after_rotate
              eq_refl) as (_ & _ & Hf & _ & _ & He).
  split; [exact Hf|]. apply (He one_key_store eq_refl). apply load_after_rotate.
Defined.

Lemma toPEM_layout_witness :
  toPEM pkcs8_bytes "PRIVATE KEY" =
  begin_line "PRIVATE KEY" +:+ nl +:+ wrap64 (btoa (fromCharCode pkcs8_bytes))
  +:+ nl +:+ end_line "PRIVATE KEY" +:+ nl.
Proof. exact (proj1 (toPEM_layout pkcs8_bytes "PRIVATE KEY")). Defined.

Lemma key_files_written_once_witness :
  reachable SampleJson.parse SampleJson.stringify store_readable world_after_rotate /\
  writes_to (privateKeyPath 1) (trace world_after_rotate) <= 1.
Proof.
  assert (reachable SampleJson.parse SampleJson.stringify store_readable
            world_after_rotate) as Hreach
    by (by apply world_after_rotate_reachable).
  split; [exact Hreach|].
  apply (key_files_written_once SampleJson.parse SampleJson.stringify
           sample_parse_stringify world_after_rotate Hreach).
Defined.

Lemma loadKeyStore_no_shape_check_witness :
  loadKeyStore parse_samples env_ok (world_with_store "42")
  = (world_with_store "42", Returned (JNum 42)) /\
  JNum 42 <> json_of_KeyStore empty_store.
Proof.
  apply (loadKeyStore_no_shape_check parse_samples env_ok (world_with_store "42")
           "42" (JNum 42)); reflexivity.
Defined.

(** C4 as stated fails: a write of the store file that breaks off leaves the
    file with the first characters of the new text, which is neither the old
    content nor the new one; no other file exists afterwards. *)
Lemma saveKeyStore_leaves_truncated_file :
  let old := SampleJson.stringify (json_of_KeyStore empty_store) in
  let new := SampleJson.stringify (json_of_KeyStore one_key_store) in
  let r := saveKeyStore SampleJson.stringify env_store_torn one_key_store
             (world_with_store old) in
  r.2 = Thrown (IoFailure KEY_STORE_FILE) /\
  files r.1 !! KEY_STORE_FILE = Some (String.substring 0 3 new) /\
  String.substring 0 3 new <> old /\
  String.substring 0 3 new <> new /\
  dom (files r.1) = {[KEY_STORE_FILE]}.
Proof.
  cbv zeta. split; [reflexivity|]. split; [reflexivity|].
  split; [vm_compute; discriminate|]. split; [vm_compute; discriminate|].
  simpl. rewrite dom_insert_L, dom_singleton_L. set_solver.
Qed.

(** C9 as stated fails.  A rotation whose store write is refused has already
    written the key files of version 1, and the rotation that follows writes
    them again; so does a rotation that returns normally but could not read
    the store file. *)
Lemma key_file_written_twice :
  (let r1 := rotateKeys SampleJson.parse SampleJson.stringify env_store_denied fresh in
   let r2 := rotateKeys SampleJson.parse SampleJson.stringify env_ok r1.1 in
   r1.2 = Thrown (IoFailure KEY_STORE_FILE) /\
   (exists ks, r2.2 = Returned ks) /\
   writes_to (privateKeyPath 1) (trace r2.1) = 2) /\
  (let r1 := rotateKeys SampleJson.parse SampleJson.stringify env_ok fresh in
   let r2 := rotateKeys SampleJson.parse SampleJson.stringify env_store_unreadable r1.1 in
   (exists ks, r1.2 = Returned ks) /\
   (exists ks, r2.2 = Returned ks) /\
   writes_to (privateKeyPath 1) (trace r2.1) = 2).
Proof.
  split; cbv zeta.
  - split; [vm_compute; reflexivity|].
    split; [eexists; vm_compute; reflexivity | vm_compute; reflexivity].
  - split; [eexists; vm_compute; reflexivity|].
    split; [eexists; vm_compute; reflexivity | vm_compute; reflexivity].
Qed.

End Witnesses.

(** * Further properties of the script *)

(** ** PEM text and file names *)

Section PemAndPaths.
Import Samples.

(** X1.  [toPEM] is one-to-one in the buffer, for every label: two buffers
    with the same PEM text are the same buffer. *)
Theorem toPEM_injective (buffer1 buffer2 : list byte) (label : string) :
  toPEM buffer1 label = toPEM buffer2 label -> buffer1 = buffer2.
Proof.
  rewrite !toPEM_wrap64. intros H.
  do 2 apply (inj (String.append _)) in H.
  apply str_app_inj_r in H.
  apply (f_equal strip_LF) in H. unfold wrap64 in H.
  rewrite !strip_LF_wrap_at in H by apply base64_not_LF, btoa_base64.
  apply (f_equal atob) in H. rewrite !atob_btoa in H.
  injection H as H. unfold fromCharCode in H.
  apply (f_equal list_byte_of_string) in H.
  by rewrite !list_byte_of_string_of_list_byte in H.
Qed.

Lemma toPEM_injective_witness :
  toPEM pkcs8_bytes "PRIVATE KEY" = toPEM pkcs8_bytes "PRIVATE KEY" /\
  pkcs8_bytes = pkcs8_bytes.
Proof.
  split; [reflexivity|].
  apply (toPEM_injective pkcs8_bytes pkcs8_bytes "PRIVATE KEY"). reflexivity.
Defined.

(** X2.  The file names of [saveKeyFiles] never collide: different versions
    have different private and different public key files, a private key
    file is never a public key file, and no key file is the store file. *)
Theorem key_file_names_distinct (a b : Z) :
  (privateKeyPath a = privateKeyPath b <-> a = b) /\
  (publicKeyPath a = publicKeyPath b <-> a = b) /\
  privateKeyPath a <> publicKeyPath b /\
  privateKeyPath a <> KEY_STORE_FILE /\
  publicKeyPath a <> KEY_STORE_FILE.
Proof.
  split; [split; [apply privateKeyPath_inj | by intros ->]|].
  split; [split; [apply publicKeyPath_inj | by intros ->]|].
  split; [apply private_not_public|].
  split; intros H; symmetry in H;
    [by apply store_not_private in H | by apply store_not_public in H].
Qed.

Lemma lines_wrap_at_nonempty (width room : nat) (s : string) :
  all_chars not_LF s = true ->
  exists hd tl,
    lines (wrap_at width room s) = hd :: tl /\
    Forall (fun l => l <> "") tl /\
    (s <> "" -> 0 < room -> hd <> "").
Proof.
  revert room. induction s as [|c s IH]; intros room Hs.
  - exists "", []. by repeat split.
  - simpl in Hs. apply andb_true_iff in Hs as [Hc Hs].
    destruct room as [|room]; simpl wrap_at.
    + destruct (IH (width - 1) Hs) as (hd & tl & Hl & Htl & _).
      exists "", (String c hd :: tl).
      rewrite lines_cons_LF, (lines_cons_other _ _ _ _ Hc Hl).
      split; [done|]. split; [|lia]. by constructor.
    + destruct (IH room Hs) as (hd & tl & Hl & Htl & _).
      exists (String c hd), tl. rewrite (lines_cons_other _ _ _ _ Hc Hl).
      by repeat split.
Qed.

Lemma btoa_nonempty (s : string) : s <> "" -> btoa s <> "".
Proof. destruct s as [|a [|b [|c s]]]; done. Qed.

(** X17.  The PEM text of a buffer that is not empty has no empty line
    between its delimiter lines: the body is the delimiter lines apart, and
    none of its lines is empty, also when the base64 text fills its last line
    exactly. *)
Theorem toPEM_body_has_no_empty_line (buffer : list byte) (label : string) :
  buffer <> [] ->
  exists body,
    toPEM buffer label
    = begin_line label +:+ nl +:+ body +:+ nl +:+ end_line label +:+ nl /\
    Forall (fun l => l <> "") (lines body).
Proof.
  intros Hne. exists (wrap64 (btoa (fromCharCode buffer))).
  split; [apply toPEM_wrap64|].
  assert (btoa (fromCharCode buffer) <> "") as Hb.
  { apply btoa_nonempty. by destruct buffer. }
  destruct (lines_wrap_at_nonempty 64 64 (btoa (fromCharCode buffer)))
    as (hd & tl & Hl & Htl & Hhd); [apply base64_not_LF, btoa_base64|].
  unfold wrap64. rewrite Hl. constructor; [apply Hhd; [done|lia] | done].
Qed.

End PemAndPaths.

(** ** What creation and rotation do to the files *)

Section FileEffects.
Import Samples.

Variable JSON_parse : string -> option json.
Variable JSON_stringify : json -> string.

Local Arguments show : simpl never.

(** The outcome of [createNewKeyPair] and the files it leaves depend on the
    files it finds, not on the rest of the world. *)
Lemma createNewKeyPair_same_files (env : Env) (w1 w2 : World) :
  files w1 = files w2 ->
  (createNewKeyPair JSON_parse JSON_stringify env w1).2
  = (createNewKeyPair JSON_parse JSON_stringify env w2).2 /\
  files (createNewKeyPair JSON_parse JSON_stringify env w1).1
  = files (createNewKeyPair JSON_parse JSON_stringify env w2).1.
Proof.
  intros Hf. unfold createNewKeyPair, bind. rewrite !initKeysDirectory_eq.
  destruct (ensureDir_ok env); [|done].
  set (wa := mkWorld (files w1) _ _). set (wb := mkWorld (files w2) _ _).
  pose proof (loadKeyStore_same_files JSON_parse env wa wb Hf) as Hsame.
  destruct (loadKeyStore_files JSON_parse env wa) as (Ha & _).
  destruct (loadKeyStore_files JSON_parse env wb) as (Hb & _).
  destruct (loadKeyStore JSON_parse env wa) as [wa' oa].
  destruct (loadKeyStore JSON_parse env wb) as [wb' ob].
  simpl in Hsame, Ha, Hb. subst ob.
  assert (files wa' = files wb') as Hf' by (by rewrite Ha, Hb).
  destruct oa as [v| |]; [|done..].
  unfold as_typed. destruct (as_KeyStore v) as [ks|]; [|done].
  unfold ret, console_log, emit, generateKeyPair, throw.
  destruct (generateKey env) as [[[pb|] [qb|]]|]; try done.
  unfold saveKeyFiles, saveKeyStore, bind, writeTextFile.
  cbn [files dirs trace fst snd].
  destruct (write_outcome env (privateKeyPath _)); [|done|by rewrite Hf'].
  cbn [files dirs trace fst snd].
  destruct (write_outcome env (publicKeyPath _)); [|by rewrite Hf'..].
  cbn [files dirs trace fst snd].
  destruct (write_outcome env KEY_STORE_FILE); cbn [files dirs trace fst snd];
    by rewrite Hf'.
Qed.

Lemma rotateKeys_like_create (env : Env) (w : World) (ks : KeyStore) :
  (loadKeyStore JSON_parse env w).2 = Returned (json_of_KeyStore ks) ->
  (rotateKeys JSON_parse JSON_stringify env w).2
  = (createNewKeyPair JSON_parse JSON_stringify env w).2 /\
  files (rotateKeys JSON_parse JSON_stringify env w).1
  = files (createNewKeyPair JSON_parse JSON_stringify env w).1.
Proof.
  intros Hload.
  destruct (rotateKeys_create JSON_parse JSON_stringify env w)
    as (v0 & w1 & Hl & Hrot).
  rewrite Hl in Hload. simpl in Hload. simplify_eq.
  change (JObj _) with (json_of_KeyStore ks) in Hrot.
  rewrite as_KeyStore_json in Hrot.
  destruct Hrot as (w2 & Hf2 & _ & Hrot). cbv zeta in Hrot.
  destruct Hrot as (Hout & Hfiles & _).
  destruct (createNewKeyPair_same_files env w2 w Hf2) as [Ho Hf].
  split; [by rewrite Hout, Ho | by rewrite Hfiles, Hf].
Qed.

(** X3.  For a store that loads, [rotateKeys] ends as [createNewKeyPair]
    does and leaves the same files: rotation is creation with more console
    output. *)
Theorem rotateKeys_is_createNewKeyPair (env : Env) (w : World) (ks : KeyStore) :
  (loadKeyStore JSON_parse env w).2 = Returned (json_of_KeyStore ks) ->
  (rotateKeys JSON_parse JSON_stringify env w).2
  = (createNewKeyPair JSON_parse JSON_stringify env w).2 /\
  files (rotateKeys JSON_parse JSON_stringify env w).1
  = files (createNewKeyPair JSON_parse JSON_stringify env w).1.
Proof.
  intros Hload.
  destruct (rotateKeys_create JSON_parse JSON_stringify env w)
    as (v0 & w1 & Hl & Hrot).
  assert (v0 = json_of_KeyStore ks) as ->
    by (rewrite Hl in Hload; simpl in Hload; congruence).
  rewrite as_KeyStore_json in Hrot.
  destruct Hrot as (w2 & Hf2 & _ & Hrot). cbv zeta in Hrot.
  destruct Hrot as (Hout & Hfiles & _).
  rewrite Hout, Hfiles. by apply createNewKeyPair_same_files.
Qed.











(** X8.  A store file that is there but cannot be examined, cannot be read or
    does not parse does not stop a rotation or a creation: if nothing else
    fails they return a store whose only key is a new key of version 1, and
    the store file is overwritten with that store. *)
Theorem unreadable_store_starts_over (env : Env) (w : World) (data : string)
    (privateBuf publicBuf : list byte) :
  let ks1 := mkKeyStore 1 [new_key env 1 privateBuf publicBuf] in
  files w !! KEY_STORE_FILE = Some data ->
  stat_fails env KEY_STORE_FILE = true \/ unreadable env KEY_STORE_FILE = true \/
  JSON_parse data = None ->
  healthy env 1 privateBuf publicBuf ->
  (exists w', rotateKeys JSON_parse JSON_stringify env w = (w', Returned ks1) /\
              files w' !! KEY_STORE_FILE = Some (JSON_stringify (json_of_KeyStore ks1))) /\
  (exists w', createNewKeyPair JSON_parse JSON_stringify env w = (w', Returned ks1) /\
              files w' !! KEY_STORE_FILE = Some (JSON_stringify (json_of_KeyStore ks1))).
Proof.
  intros ks1 Hfile Hbad Hh.
  assert ((loadKeyStore JSON_parse env w).2 = Returned (json_of_KeyStore empty_store))
    as Hload.
  { rewrite loadKeyStore_eq, Hfile.
    destruct Hbad as [->|[->| ->]]; repeat first [done | case_match]. }
  split.
  - destruct (rotateKeys_healthy JSON_parse JSON_stringify env w empty_store _ _
                Hload Hh) as (w' & Hr & Hf & _).
    exists w'. split; [done|]. by rewrite Hf, lookup_insert_eq.
  - destruct (createNewKeyPair_healthy JSON_parse JSON_stringify env w empty_store
                _ _ Hload Hh) as (w' & Hr & Hf & _).
    exists w'. split; [done|]. by rewrite Hf, lookup_insert_eq.
Qed.

(** X9.  [loadKeyStore] only reads: it changes no file and no directory, and
    the only thing it can add to the output is the one warning. *)
Theorem loadKeyStore_read_only (env : Env) (w : World) :
  let r := loadKeyStore JSON_parse env w in
  files r.1 = files w /\ dirs r.1 = dirs w /\
  (trace r.1 = trace w \/
   trace r.1 = (trace w ++ [ConsoleWarn "Could not load keystore, creating new one"])%list).
Proof.
  cbv zeta. rewrite loadKeyStore_eq.
  repeat case_match; simpl; auto.
Qed.

(** X18.  A rotation that failed because the primitive refused leaves
    nothing behind: the rotation after it ends as it would have ended without
    the failed attempt, and leaves the same files. *)
Theorem rotation_after_keygen_failure (env1 env2 : Env) (e : exn) (w : World)
    (ks : KeyStore) :
  keygen_error env1 = Some e ->
  (loadKeyStore JSON_parse env2 w).2 = Returned (json_of_KeyStore ks) ->
  let failed := rotateKeys JSON_parse JSON_stringify env1 w in
  (rotateKeys JSON_parse JSON_stringify env2 failed.1).2
  = (rotateKeys JSON_parse JSON_stringify env2 w).2 /\
  files (rotateKeys JSON_parse JSON_stringify env2 failed.1).1
  = files (rotateKeys JSON_parse JSON_stringify env2 w).1.
Proof.
  intros He Hload failed.
  assert (files failed.1 = files w) as Hf
    by apply (rotateKeys_keygen_error JSON_parse JSON_stringify env1 e w He).
  assert ((loadKeyStore JSON_parse env2 failed.1).2
          = Returned (json_of_KeyStore ks)) as Hload'.
  { by rewrite (loadKeyStore_same_files JSON_parse env2 failed.1 w Hf). }
  destruct (rotateKeys_like_create env2 failed.1 ks Hload') as [-> ->].
  destruct (rotateKeys_like_create env2 w ks Hload) as [-> ->].
  by apply createNewKeyPair_same_files.
Qed.

End FileEffects.

(** ** The persisted store and the key files *)

Section PersistedStore.
Import Samples.

Variable JSON_parse : string -> option json.
Variable JSON_stringify : json -> string.

Hypothesis parse_stringify :
  forall ks, JSON_parse (JSON_stringify (json_of_KeyStore ks))
             = Some (json_of_KeyStore ks).

(** X10.  What [saveKeyStore] has written, [loadKeyStore] reads back: after a
    save that succeeds, a load that can read the store file returns the saved
    store, without a warning. *)
Theorem saveKeyStore_then_load (env env' : Env) (ks : KeyStore) (w : World) :
  write_outcome env KEY_STORE_FILE = WriteOk ->
  store_readable env' ->
  let s := saveKeyStore JSON_stringify env ks w in
  s.2 = Returned tt /\
  loadKeyStore JSON_parse env' s.1 = (s.1, Returned (json_of_KeyStore ks)).
Proof.
  intros Hw [Hs Hu]. cbv zeta. unfold saveKeyStore, writeTextFile. rewrite Hw.
  split; [reflexivity|]. rewrite loadKeyStore_eq, Hs. simpl.
  by rewrite lookup_insert_eq, Hu, parse_stringify.
Qed.


Lemma key_files_match_step (env : Env) (w w' : World) (ks : KeyStore)
    (pb qb : list byte) :
  let v := (currentVersion ks + 1)%Z in
  let k := new_key env v pb qb in
  store_inv ks -> key_files_match w ks ->
  files w' =
    <[KEY_STORE_FILE := JSON_stringify (json_of_KeyStore (mkKeyStore v (keys ks ++ [k])))]>
      (<[publicKeyPath v := publicKey k]>
         (<[privateKeyPath v := privateKey k]> (files w))) ->
  key_files_match w' (mkKeyStore v (keys ks ++ [k])).
Proof.
  intros v k (Hmax & _ & Hseq) Hm Hf k0 Hin. simpl in Hin.
  pose proof (max_version_nonneg (keys ks)) as Hnn. rewrite <- Hmax in Hnn.
  rewrite Hf.
  rewrite (lookup_insert_ne _ KEY_STORE_FILE (privateKeyPath _))
    by apply store_not_private.
  rewrite (lookup_insert_ne _ KEY_STORE_FILE (publicKeyPath _))
    by apply store_not_public.
  apply in_app_or in Hin as [Hin|[<-|[]]].
  - assert (version k0 <> v) as Hne.
    { assert (version k0 ∈ seqZ 1 (currentVersion ks)) as Hel.
      { rewrite <- Hseq. apply list_elem_of_In, in_map, Hin. }
      apply elem_of_seqZ in Hel. unfold v. lia. }
    destruct (Hm k0 Hin) as [Hpriv Hpub]. split.
    + rewrite lookup_insert_ne
        by (intros H; symmetry in H; by apply private_not_public in H).
      rewrite lookup_insert_ne; [done|].
      intros H. apply privateKeyPath_inj in H. by apply Hne.
    + rewrite lookup_insert_ne
        by (intros H; apply publicKeyPath_inj in H; by apply Hne).
      rewrite lookup_insert_ne; [done|]. apply private_not_public.
  - simpl. split.
    + rewrite lookup_insert_ne, lookup_insert_eq; [done|].
      intros H. symmetry in H. by apply private_not_public in H.
    + by rewrite lookup_insert_eq.
Qed.

Lemma reachable_key_files_match (w : World) :
  reachable JSON_parse JSON_stringify any_env w ->
  exists ks, persisted JSON_stringify w ks /\ store_inv ks /\ key_files_match w ks.
Proof.
  intros Hreach.
  induction Hreach as [|env w0 w1 v Hreach IH Ha Hl|env w0 w1 ks' Hreach IH Ha Hc
                       |env w0 w1 ks' Hreach IH Ha Hr].
  - exists empty_store. split; [reflexivity|]. split; [apply store_inv_empty|].
    intros k [].
  - destruct IH as (ks & Hp & Hinv & Hm). exists ks.
    split; [eauto using load_keeps_persisted|]. split; [done|].
    destruct (loadKeyStore_files JSON_parse env w0) as (Hf & _).
    rewrite Hl in Hf. simpl in Hf. intros k Hk. rewrite Hf. by apply Hm.
  - destruct IH as (ks & Hp & Hinv & Hm).
    assert (exists ks0, (loadKeyStore JSON_parse env w0).2
                        = Returned (json_of_KeyStore ks0)
                        /\ store_inv ks0 /\ key_files_match w0 ks0)
      as (ks0 & Hload & Hinv0 & Hm0).
    { destruct (load_persisted _ _ parse_stringify env w0 ks Hp) as [H|H]; eauto.
      exists empty_store. split; [done|]. split; [apply store_inv_empty|].
      intros k []. }
    destruct (createNewKeyPair_returned _ _ _ _ _ _ Hc) as (ks1 & pb & qb & Hload1 & Hh).
    assert (ks0 = ks1) as <- by (apply json_of_KeyStore_inj; congruence).
    destruct (createNewKeyPair_healthy JSON_parse JSON_stringify env w0 ks0 pb qb
                Hload Hh) as (w'' & Hc' & Hf & _).
    rewrite Hc in Hc'. simplify_eq.
    eexists. split; [|split].
    + unfold persisted. by rewrite Hf, lookup_insert_eq.
    + by apply store_inv_snoc.
    + by apply (key_files_match_step env w0).
  - destruct IH as (ks & Hp & Hinv & Hm).
    assert (exists ks0, (loadKeyStore JSON_parse env w0).2
                        = Returned (json_of_KeyStore ks0)
                        /\ store_inv ks0 /\ key_files_match w0 ks0)
      as (ks0 & Hload & Hinv0 & Hm0).
    { destruct (load_persisted _ _ parse_stringify env w0 ks Hp) as [H|H]; eauto.
      exists empty_store. split; [done|]. split; [apply store_inv_empty|].
      intros k []. }
    destruct (rotateKeys_returned _ _ _ _ _ _ Hr) as (ks1 & pb & qb & Hload1 & Hh).
    assert (ks0 = ks1) as <- by (apply json_of_KeyStore_inj; congruence).
    destruct (rotateKeys_healthy JSON_parse JSON_stringify env w0 ks0 pb qb
                Hload Hh) as (w'' & Hr' & Hf & _).
    rewrite Hr in Hr'. simplify_eq.
    eexists. split; [|split].
    + unfold persisted. by rewrite Hf, lookup_insert_eq.
    + by apply store_inv_snoc.
    + by apply (key_files_match_step env w0).
Qed.

(** X12.  In every world reached from the fresh one by operations that
    return normally, the key files agree with the store: each key of the
    persisted store has its private and its public key file on disk, holding
    exactly the PEM texts the store records for that key. *)
Theorem key_files_agree_with_store (w : World) :
  reachable JSON_parse JSON_stringify any_env w ->
  exists ks, persisted JSON_stringify w ks /\ key_files_match w ks.
Proof.
  intros Hreach.
  destruct (reachable_key_files_match w Hreach) as (ks & Hp & _ & Hm). eauto.
Qed.

End PersistedStore.

(** ** Listing the keys and the command line *)

Section ListingKeys.
Import Samples.

Variable JSON_parse : string -> option json.
Variable JSON_stringify : json -> string.
Variable toLocaleString : string -> string.

Local Arguments show : simpl never.
Local Arguments rule : simpl never.

Lemma forEach_console_log {A : Type} (l : list A) (f : A -> string) (w : World) :
  forEach l (fun x => emit (ConsoleLog (f x))) w
  = (mkWorld (files w) (dirs w) (trace w ++ map (fun x => ConsoleLog (f x)) l),
     Returned tt).
Proof.
  revert w. induction l as [|x l IH]; intros w.
  - simpl. rewrite app_nil_r. by destruct w.
  - simpl. unfold bind. unfold emit at 1. rewrite IH. simpl.
    by rewrite <- app_assoc.
Qed.

(** The console lines of the listing of a store. *)
Lemma listKeys_eq (env : Env) (w : World) :
  listKeys JSON_parse toLocaleString env w =
  let (w1, o) := loadKeyStore JSON_parse env w in
  match o with
  | Returned v =>
      match as_KeyStore v with
      | None => (w1, Untyped)
      | Some ks =>
          (mkWorld (files w1) (dirs w1)
             (trace w1 ++
              match keys ks with
              | [] => [ConsoleLog "No keys found in keystore"]
              | _ :: _ =>
                  [ConsoleLog "Stored Keys:"; ConsoleLog rule] ++
                  map (fun k => ConsoleLog (key_line toLocaleString ks k)) (keys ks) ++
                  [ConsoleLog rule;
                   ConsoleLog ("Total: " +:+ show (Z.of_nat (List.length (keys ks)))
                               +:+ " key pair(s)" +:+ nl)]
              end), Returned tt)
      end
  | Thrown e => (w1, Thrown e)
  | Untyped => (w1, Untyped)
  end.
Proof.
  unfold listKeys, bind.
  destruct (loadKeyStore JSON_parse env w) as [w1 [v| |]]; try done.
  unfold as_typed. destruct (as_KeyStore v) as [ks|]; [|done].
  unfold ret. destruct (keys ks) as [|k l] eqn:Hk; [done|].
  cbn [length Nat.eqb]. unfold console_log.
  do 2 (unfold emit at 1; cbn [files dirs trace]).
  rewrite forEach_console_log. unfold emit. cbn [files dirs trace]. f_equal. f_equal.
  rewrite <- !app_assoc. reflexivity.
Qed.

Lemma writes_to_console (path : string) (lines : list string) :
  writes_to path (map ConsoleLog lines) = 0.
Proof. induction lines as [|l lines IH]; [done|]. exact IH. Qed.

Lemma listKeys_effects (env : Env) (w : World) :
  let r := listKeys JSON_parse toLocaleString env w in
  files r.1 = files w /\ dirs r.1 = dirs w /\
  (forall path, writes_to path (trace r.1) = writes_to path (trace w)) /\
  (forall e, r.2 <> Thrown e).
Proof.
  cbv zeta. rewrite listKeys_eq.
  destruct (loadKeyStore_files JSON_parse env w) as (Hf & Hd & Hw).
  destruct (loadKeyStore_returns JSON_parse env w) as (w1 & v & Hl).
  rewrite Hl in *. simpl in Hf, Hd, Hw.
  destruct (as_KeyStore v) as [ks|]; [|done].
  cbn [fst snd files dirs trace]. split; [done|]. split; [done|]. split; [|done].
  intros path. rewrite writes_to_app, Hw.
  destruct (keys ks) as [|k l]; [simpl; lia|].
  rewrite !writes_to_app.
  rewrite <- (map_map (key_line toLocaleString ks) ConsoleLog), writes_to_console.
  simpl. lia.
Qed.

Lemma listKeys_returns (env : Env) (w : World) (ks : KeyStore) :
  (loadKeyStore JSON_parse env w).2 = Returned (json_of_KeyStore ks) ->
  (listKeys JSON_parse toLocaleString env w).2 = Returned tt.
Proof.
  intros Hload. rewrite listKeys_eq.
  destruct (loadKeyStore JSON_parse env w) as [w1 o]. simpl in Hload. subst o.
  by rewrite as_KeyStore_json.
Qed.

(** X13.  [listKeys] only reads and prints: it changes no file and no
    directory and writes no file; and for a store that loads it returns
    normally. *)
Theorem listKeys_read_only (env : Env) (w : World) :
  let r := listKeys JSON_parse toLocaleString env w in
  files r.1 = files w /\ dirs r.1 = dirs w /\
  (forall path, writes_to path (trace r.1) = writes_to path (trace w)) /\
  (forall ks, (loadKeyStore JSON_parse env w).2 = Returned (json_of_KeyStore ks) ->
              r.2 = Returned tt).
Proof.
  destruct (listKeys_effects env w) as (Hf & Hd & Hw & _).
  repeat split; try done. apply listKeys_returns.
Qed.

Lemma store_inv_last (ks : KeyStore) (older : list KeyPair) (newest : KeyPair) :
  store_inv ks -> keys ks = (older ++ [newest])%list ->
  version newest = currentVersion ks /\
  forall k, In k older -> version k <> currentVersion ks.
Proof.
  intros (_ & _ & Hseq) Hk. rewrite Hk, map_app in Hseq. simpl in Hseq.
  assert (currentVersion ks = Z.of_nat (S (List.length older))) as Hcv.
  { apply (f_equal List.length) in Hseq.
    rewrite length_app, length_map, length_seqZ in Hseq. simpl in Hseq. lia. }
  rewrite Hcv, seqZ_S in Hseq. apply app_inj_tail in Hseq as [Hold Hnew].
  split; [lia|]. intros k Hin.
  assert (version k ∈ seqZ 1 (Z.of_nat (List.length older))) as Hel.
  { rewrite <- Hold. apply list_elem_of_In, in_map, Hin. }
  apply elem_of_seqZ in Hel. lia.
Qed.

(** X14.  For a store that satisfies the store invariant and has keys,
    [listKeys] prints a heading, one line for each key in the order of the
    store, and a total; the line of the last key is the only one marked
    [Current], all earlier keys are marked [Archived]. *)
Theorem listKeys_marks_the_last_key (env : Env) (w : World) (ks : KeyStore) :
  (loadKeyStore JSON_parse env w).2 = Returned (json_of_KeyStore ks) ->
  store_inv ks -> keys ks <> [] ->
  let line (mark : string) (k : KeyPair) :=
    ConsoleLog (mark +:+ " │ Version " +:+ show (version k) +:+
                " │ Created: " +:+ toLocaleString (createdAt k)) in
  exists older newest,
    keys ks = (older ++ [newest])%list /\
    trace (listKeys JSON_parse toLocaleString env w).1 =
      (trace (loadKeyStore JSON_parse env w).1 ++
       [ConsoleLog "Stored Keys:"; ConsoleLog rule] ++
       map (line "  Archived") older ++ [line "  Current " newest] ++
       [ConsoleLog rule;
        ConsoleLog ("Total: " +:+ show (Z.of_nat (List.length (keys ks)))
                    +:+ " key pair(s)" +:+ nl)])%list.
Proof.
  intros Hload Hinv Hne line.
  destruct (exists_last Hne) as (older & newest & Hk).
  exists older, newest. split; [exact Hk|].
  destruct (store_inv_last ks older newest Hinv Hk) as [Hnew Hold].
  rewrite listKeys_eq.
  destruct (loadKeyStore JSON_parse env w) as [w1 o]. simpl in Hload. subst o.
  rewrite as_KeyStore_json. cbn [fst trace]. f_equal.
  destruct (keys ks) as [|k0 l] eqn:Hkeys; [done|]. rewrite Hk.
  f_equal. rewrite map_app, <- app_assoc. f_equal.
  - apply map_ext_in. intros k Hin. unfold key_line, marker, line.
    apply Hold in Hin. by destruct (Z.eqb_spec (version k) (currentVersion ks)).
  - simpl. unfold key_line, marker, line. by rewrite Hnew, Z.eqb_refl.
Qed.

(** A load does the same in all worlds that have the same files. *)
Lemma loadKeyStore_uniform (env : Env) (w : World) :
  exists pre v, forall w',
    files w' = files w ->
    loadKeyStore JSON_parse env w'
    = (mkWorld (files w') (dirs w') (trace w' ++ pre), Returned v).
Proof.
  assert (forall w' : World, mkWorld (files w') (dirs w') (trace w' ++ []) = w')
    as Hnil by (intros [? ? ?]; simpl; by rewrite app_nil_r).
  destruct (stat_fails env KEY_STORE_FILE) eqn:Hs.
  { exists [ConsoleWarn "Could not load keystore, creating new one"],
      (json_of_KeyStore empty_store).
    intros w' Hf. rewrite loadKeyStore_eq, Hs. reflexivity. }
  destruct (files w !! KEY_STORE_FILE) as [data|] eqn:Hfile.
  - destruct (unreadable env KEY_STORE_FILE) eqn:Hu.
    { exists [ConsoleWarn "Could not load keystore, creating new one"],
        (json_of_KeyStore empty_store).
      intros w' Hf. rewrite <- Hf in Hfile.
      rewrite loadKeyStore_eq, Hs, Hfile, Hu. reflexivity. }
    destruct (JSON_parse data) as [v|] eqn:Hp.
    + exists [], v. intros w' Hf. rewrite <- Hf in Hfile.
      rewrite loadKeyStore_eq, Hs, Hfile, Hu, Hp, Hnil. reflexivity.
    + exists [ConsoleWarn "Could not load keystore, creating new one"],
        (json_of_KeyStore empty_store).
      intros w' Hf. rewrite <- Hf in Hfile.
      rewrite loadKeyStore_eq, Hs, Hfile, Hu, Hp. reflexivity.
  - exists [], (json_of_KeyStore empty_store).
    intros w' Hf. rewrite <- Hf in Hfile.
    rewrite loadKeyStore_eq, Hs, Hfile, Hnil. reflexivity.
Qed.

(** X15.  Listing a store that loads twice in a row prints the same lines
    twice: the second listing returns as the first did and appends to the
    output exactly what the first appended. *)
Theorem listKeys_twice (env : Env) (w : World) (ks : KeyStore) :
  (loadKeyStore JSON_parse env w).2 = Returned (json_of_KeyStore ks) ->
  let r1 := listKeys JSON_parse toLocaleString env w in
  let r2 := listKeys JSON_parse toLocaleString env r1.1 in
  r1.2 = Returned tt /\ r2.2 = Returned tt /\
  exists out, trace r1.1 = (trace w ++ out)%list /\
              trace r2.1 = (trace r1.1 ++ out)%list.
Proof.
  intros Htyped. cbv zeta.
  assert (files (listKeys JSON_parse toLocaleString env w).1 = files w) as Hf
    by apply listKeys_effects.
  destruct (loadKeyStore_uniform env w) as (pre & v & Hload).
  rewrite (Hload w eq_refl) in Htyped. simpl in Htyped.
  assert (v = json_of_KeyStore ks) as -> by congruence.
  rewrite (listKeys_eq env (listKeys _ _ _ w).1), (Hload _ Hf).
  rewrite (listKeys_eq env w), (Hload w eq_refl).
  rewrite as_KeyStore_json. cbn [fst snd trace].
  split; [reflexivity|]. split; [reflexivity|].
  eexists; split; rewrite <- ?app_assoc; reflexivity.
Qed.

(** X16.  The command line writes only on [rotate]: with any other first
    argument, or none, [main] changes no file and no directory and writes no
    file; and unless the argument is [list] it returns after printing the
    three usage lines and nothing else. *)
Theorem main_writes_only_on_rotate (env : Env) (args : list string) (w : World) :
  head args <> Some "rotate" ->
  let r := main JSON_parse JSON_stringify toLocaleString env args w in
  files r.1 = files w /\ dirs r.1 = dirs w /\
  (forall path, writes_to path (trace r.1) = writes_to path (trace w)) /\
  (head args <> Some "list" ->
   r.2 = Returned tt /\
   trace r.1 =
     (trace w ++
      [ConsoleLog "Usage:";
       ConsoleLog "  deno run --allow-read --allow-write .scripts/key-manager.ts rotate    # Rotate keys (keeps old ones)";
       ConsoleLog "  deno run --allow-read --allow-write .scripts/key-manager.ts list      # List all stored keys"])%list).
Proof.
  intros Hnot r. subst r.
  assert (let r := usage w in
          files r.1 = files w /\ dirs r.1 = dirs w /\
          (forall path, writes_to path (trace r.1) = writes_to path (trace w)) /\
          r.2 = Returned tt /\
          trace r.1 =
            (trace w ++
             [ConsoleLog "Usage:";
              ConsoleLog "  deno run --allow-read --allow-write .scripts/key-manager.ts rotate    # Rotate keys (keeps old ones)";
              ConsoleLog "  deno run --allow-read --allow-write .scripts/key-manager.ts list      # List all stored keys"])%list)
    as Husage.
  { unfold usage, bind, console_log, emit. cbn [fst snd files dirs trace].
    repeat split; try done;
      try (intros path; rewrite !writes_to_app; simpl; lia);
      by rewrite <- !app_assoc. }
  cbv zeta in Husage. destruct Husage as (U1 & U2 & U3 & U5 & U6).
  unfold main. destruct args as [|arg rest]; [by repeat split|].
  simpl in Hnot.
  destruct (String.eqb_spec arg "rotate") as [->|_]; [done|].
  destruct (String.eqb_spec arg "list") as [->|_]; [|by repeat split].
  destruct (listKeys_effects env w) as (L1 & L2 & L3 & _).
  repeat split; done.
Qed.

End ListingKeys.

(** ** The further properties on the sample environments *)

Section FurtherWitnesses.
Import Samples.


Lemma store_readable_env_ok : store_readable env_ok.
Proof. by split. Qed.


Lemma key_file_names_distinct_witness : privateKeyPath 1 <> publicKeyPath 2.
Proof. exact (proj1 (proj2 (proj2 (key_file_names_distinct 1 2)))). Defined.

Lemma rotateKeys_is_createNewKeyPair_witness :
  (rotateKeys SampleJson.parse SampleJson.stringify env_ok world_after_rotate).2
  = (createNewKeyPair SampleJson.parse SampleJson.stringify env_ok
       world_after_rotate).2.
Proof.
  exact (proj1 (rotateKeys_is_createNewKeyPair SampleJson.parse
                  SampleJson.stringify env_ok world_after_rotate one_key_store
                  load_after_rotate)).
Defined.





Lemma unreadable_store_starts_over_witness :
  exists w',
    rotateKeys SampleJson.parse SampleJson.stringify env_store_unreadable
      world_after_rotate
    = (w', Returned (mkKeyStore 1
                       [new_key env_store_unreadable 1 pkcs8_bytes spki_bytes])).
Proof.
  destruct (unreadable_store_starts_over SampleJson.parse SampleJson.stringify
              env_store_unreadable world_after_rotate
              (SampleJson.stringify (json_of_KeyStore one_key_store))
              pkcs8_bytes spki_bytes) as [(w' & Hr & _) _].
  - vm_compute. reflexivity.
  - right. left. reflexivity.
  - by repeat split.
  - by exists w'.
Defined.

Lemma saveKeyStore_then_load_witness :
  let s := saveKeyStore SampleJson.stringify env_ok one_key_store fresh in
  loadKeyStore SampleJson.parse env_ok s.1
  = (s.1, Returned (json_of_KeyStore one_key_store)).
Proof.
  exact (proj2 (saveKeyStore_then_load SampleJson.parse SampleJson.stringify
                  sample_parse_stringify env_ok env_ok one_key_store fresh
                  eq_refl store_readable_env_ok)).
Defined.


Lemma key_files_agree_with_store_witness :
  exists ks, persisted SampleJson.stringify world_after_rotate ks /\
             key_files_match world_after_rotate ks.
Proof.
  apply (key_files_agree_with_store SampleJson.parse SampleJson.stringify
           sample_parse_stringify world_after_rotate).
  by apply world_after_rotate_reachable.
Defined.

Lemma listKeys_marks_the_last_key_witness :
  exists older newest,
    keys one_key_store = (older ++ [newest])%list /\
    trace (listKeys SampleJson.parse sample_locale env_ok world_after_rotate).1 =
      (trace (loadKeyStore SampleJson.parse env_ok world_after_rotate).1 ++
       [ConsoleLog "Stored Keys:"; ConsoleLog rule] ++
       map (fun k => ConsoleLog ("  Archived" +:+ " │ Version " +:+ show (version k)
                                 +:+ " │ Created: " +:+ sample_locale (createdAt k)))
         older ++
       [ConsoleLog ("  Current " +:+ " │ Version " +:+ show (version newest)
                    +:+ " │ Created: " +:+ sample_locale (createdAt newest))] ++
       [ConsoleLog rule;
        ConsoleLog ("Total: " +:+ show (Z.of_nat (List.length (keys one_key_store)))
                    +:+ " key pair(s)" +:+ nl)])%list.
Proof.
  apply (listKeys_marks_the_last_key SampleJson.parse sample_locale env_ok
           world_after_rotate one_key_store).
  - apply load_after_rotate.
  - apply store_inv_one_key_store.
  - discriminate.
Defined.

Lemma listKeys_read_only_witness :
  (listKeys SampleJson.parse sample_locale env_ok world_after_rotate).2
  = Returned tt.
Proof.
  exact (proj2 (proj2 (proj2 (listKeys_read_only SampleJson.parse sample_locale
                                env_ok world_after_rotate)))
           one_key_store load_after_rotate).
Defined.

Lemma listKeys_twice_witness :
  let r1 := listKeys SampleJson.parse sample_locale env_ok world_after_rotate in
  (listKeys SampleJson.parse sample_locale env_ok r1.1).2 = Returned tt.
Proof.
  exact (proj1 (proj2 (listKeys_twice SampleJson.parse sample_locale env_ok
                         world_after_rotate one_key_store load_after_rotate))).
Defined.

Lemma main_writes_only_on_rotate_witness :
  files (main SampleJson.parse SampleJson.stringify sample_locale env_ok ["list"]
           world_after_rotate).1
  = files world_after_rotate.
Proof.
  assert (head ["list"] <> Some "rotate") as Hnot by discriminate.
  exact (proj1 (main_writes_only_on_rotate SampleJson.parse SampleJson.stringify
                  sample_locale env_ok ["list"] world_after_rotate Hnot)).
Defined.

Lemma toPEM_body_has_no_empty_line_witness :
  exists body,
    toPEM pkcs8_bytes "PRIVATE KEY"
    = begin_line "PRIVATE KEY" +:+ nl +:+ body +:+ nl +:+ end_line "PRIVATE KEY"
      +:+ nl /\
    Forall (fun l => l <> "") (lines body).
Proof.
  apply (toPEM_body_has_no_empty_line pkcs8_bytes "PRIVATE KEY"). discriminate.
Defined.

Lemma rotation_after_keygen_failure_witness :
  let failed := rotateKeys SampleJson.parse SampleJson.stringify env_no_keygen
                  world_after_rotate in
  (rotateKeys SampleJson.parse SampleJson.stringify env_ok failed.1).2
  = (rotateKeys SampleJson.parse SampleJson.stringify env_ok world_after_rotate).2.
Proof.
  exact (proj1 (rotation_after_keygen_failure SampleJson.parse
                  SampleJson.stringify env_no_keygen env_ok
                  (CryptoFailure "generateKey") world_after_rotate
                  one_key_store eq_refl load_after_rotate)).
Defined.


End FurtherWitnesses.
